(** * PULSEE: qubit spaces, states, gates and the Magnus engine

    A shallow embedding of [pulsee/Quantum_Computing.py] and
    [pulsee/operators.py].

    Conventions.
    - Python [int]s are [Z]; [len] is [Z.of_nat (length _)].
    - numpy [float64] scalars are idealised as real numbers [R], and
      [complex128] scalars as pairs of reals ([C]).  A [float64] array is a
      [list R], a [complex128] array a [list C].
    - A Python exception is a value of [pyerror]; code that may raise
      returns a [result].
    - A Python list is passed by reference: where a function mutates its
      argument the embedding returns the final contents of the caller's
      list next to the result. *)

From Stdlib Require Import ZArith Reals Lra Lia List String.
From stdpp Require Import base list.

Local Open Scope Z_scope.

(** ** Exceptions *)

Inductive pyerror : Type :=
| MatrixRepresentationError
| ValueError
| AttributeError
| AssertionError
| IndexError
| RecursionError.

Inductive result (A : Type) : Type :=
| Ok (a : A)
| Raise (e : pyerror).

Arguments Ok {A} a.
Arguments Raise {A} e.

Definition rbind {A B : Type} (r : result A) (k : A -> result B) : result B :=
  match r with
  | Ok a => k a
  | Raise e => Raise e
  end.

Notation "'let*' x ':=' r 'in' k" := (rbind r (fun x => k))
  (at level 10, x name, r at level 100, k at level 200).

(** ** Python sequences *)

Definition len {A : Type} (l : list A) : Z := Z.of_nat (length l).

(** [a[i] = x] on a sequence: a negative index counts from the end, an index
    out of range raises [IndexError]. *)
Definition setitem {A : Type} (a : list A) (i : Z) (x : A) : result (list A) :=
  if (0 <=? i) && (i <? len a) then Ok (<[Z.to_nat i := x]> a)
  else if (- len a <=? i) && (i <? 0) then Ok (<[Z.to_nat (i + len a) := x]> a)
  else Raise IndexError.

(** ** CompositeQubitSpace *)

Record CompositeQubitSpace : Type := { _n : Z }.

Definition CompositeQubitSpace_init (n : Z) : result CompositeQubitSpace :=
  if n <=? 0 then Raise ValueError else Ok {| _n := n |}.

(** [0 <= i <= 1] *)
Definition bit_ok (i : Z) : bool := (0 <=? i) && (i <=? 1).

(** The loop [for ind in indices[1:]: i += ind * 2 ** k; k += 1], on the
    state [(i, k)]. *)
Definition accumulate (rest : list Z) (i0 : Z) : Z * Z :=
  fold_left (fun st ind => (fst st + ind * 2 ^ snd st, snd st + 1)) rest (i0, 1).

(** [basis_from_indices].  The second component is the caller's list once
    the call is over: [indices.reverse()] works in place. *)
Definition basis_from_indices (self : CompositeQubitSpace) (indices : list Z)
  : result (list R) * list Z :=
  if negb (forallb bit_ok indices) then (Raise MatrixRepresentationError, indices)
  else if negb (len indices =? _n self) then (Raise MatrixRepresentationError, indices)
  else
    let basis := replicate (Z.to_nat (2 ^ _n self)) 0%R in
    let indices := rev indices in
    match indices with
    | [] => (Raise IndexError, indices)
    | i0 :: rest =>
        let i := fst (accumulate rest i0) in
        (setitem basis i 1%R, indices)
    end.

(** *** Reading of the index, for the statements *)

(** [sum_k l[k] * 2^k]: the bits of [l], least significant first. *)
Fixpoint bits_value (l : list Z) : Z :=
  match l with
  | [] => 0
  | b :: l' => b + 2 * bits_value l'
  end.

(** The vector of length [d] with a single 1, at position [i]. *)
Definition unit_vector (d : nat) (i : nat) : list R :=
  map (fun j => if Nat.eqb j i then 1%R else 0%R) (seq 0 d).

Definition is_bit (x : Z) : Prop := x = 0 \/ x = 1.

(** [onb_matrices].  [add_bit] is the local recursive closure; the list
    [matrices] it appends to is threaded through the calls.  [new_vec] is a
    fresh list ([vec + [bit]]) at every call, so the in-place reversal done
    by [basis_from_indices] at a leaf is never seen by another call.  The
    recursion has no bound of its own in the source ([fuel] stands for the
    interpreter's recursion limit). *)
Fixpoint add_bit (fuel : nat) (self : CompositeQubitSpace) (bit : Z)
    (vec : list Z) (matrices : list (list R)) : result (list (list R)) :=
  match fuel with
  | O => Raise RecursionError
  | S fuel =>
      let new_vec := vec ++ [bit] in
      if len new_vec =? _n self then
        let* b := fst (basis_from_indices self new_vec) in
        Ok (matrices ++ [b])
      else
        let* matrices := add_bit fuel self 0 new_vec matrices in
        add_bit fuel self 1 new_vec matrices
  end.

Definition onb_matrices (fuel : nat) (self : CompositeQubitSpace)
  : result (list (list R)) :=
  let matrices := [] in
  let* matrices := add_bit fuel self 0 [] matrices in
  add_bit fuel self 1 [] matrices.

(** The standard basis of dimension [d], in index order. *)
Definition standard_basis (d : nat) : list (list R) :=
  map (unit_vector d) (seq 0 d).

(** ** Scalars *)

(** [complex128], idealised: a pair of reals. *)
Record C : Type := mkC { Re : R; Im : R }.

Definition RtoC (x : R) : C := mkC x 0.
Definition C0 : C := RtoC 0.
Definition C1 : C := RtoC 1.
Definition Ci : C := mkC 0 1.
Definition Cadd (a b : C) : C := mkC (Re a + Re b) (Im a + Im b).
Definition Copp (a : C) : C := mkC (- Re a) (- Im a).
Definition Csub (a b : C) : C := mkC (Re a - Re b) (Im a - Im b).
Definition Cmul (a b : C) : C :=
  mkC (Re a * Re b - Im a * Im b) (Re a * Im b + Im a * Re b).
Definition Cconj (a : C) : C := mkC (Re a) (- Im a).
(** division of a complex number by a real one *)
Definition Cdivr (a : C) (x : R) : C := mkC (Re a / x) (Im a / x).
Definition Cmod (a : C) : R := sqrt (Re a * Re a + Im a * Im a).
(** [np.exp] of a complex number *)
Definition Cexp (a : C) : C := mkC (exp (Re a) * cos (Im a)) (exp (Re a) * sin (Im a)).

Definition Ceqb (a b : C) : bool :=
  if Req_dec_T (Re a) (Re b) then (if Req_dec_T (Im a) (Im b) then true else false)
  else false.

(** ** Arrays *)

(** A 1-D [complex128] array and a 2-D one (a list of rows). *)
Definition vector : Type := list C.
Definition matrix : Type := list (list C).

Definition csum (l : list C) : C := fold_right Cadd C0 l.

(** [np.dot] of two 1-D arrays of one length. *)
Definition dot (u v : vector) : C := csum (zip_with Cmul u v).

Definition vscale (c : C) (v : vector) : vector := map (Cmul c) v.
Definition vadd (u v : vector) : vector := zip_with Cadd u v.

(** [np.shape] of a 2-D array. *)
Definition ncols (a : matrix) : nat := length (hd [] a).
Definition shape (a : matrix) : Z * Z := (len a, Z.of_nat (ncols a)).
Definition shape_eqb (s t : Z * Z) : bool := (fst s =? fst t) && (snd s =? snd t).

(** Every row has [c] entries and there are [r] rows. *)
Definition is_matrix (r c : nat) (a : matrix) : Prop :=
  length a = r /\ Forall (fun row => length row = c) a.

Definition col (a : matrix) (j : nat) : vector := map (fun row => nth j row C0) a.
Definition transpose (a : matrix) : matrix := map (col a) (seq 0 (ncols a)).

(** [adjoint]: the conjugate transpose. *)
Definition adjoint (a : matrix) : matrix := map (map Cconj) (transpose a).

(** Matrix product ([np.matmul] on 2-D arrays, [*] on operators). *)
Definition mmul (a b : matrix) : matrix :=
  map (fun row => map (fun j => dot row (col b j)) (seq 0 (ncols b))) a.

(** [np.matmul] of a 2-D array and a 1-D array. *)
Definition mvmul (a : matrix) (v : vector) : vector := map (fun row => dot row v) a.

Definition madd (a b : matrix) : matrix := zip_with (zip_with Cadd) a b.
Definition msub (a b : matrix) : matrix := zip_with (zip_with Csub) a b.
(** [c * a], [a * c] and [a / x] for a scalar *)
Definition mscale (c : C) (a : matrix) : matrix := map (map (Cmul c)) a.
Definition mscale_r (a : matrix) (c : C) : matrix := map (map (fun x => Cmul x c)) a.
Definition mdivr (a : matrix) (x : R) : matrix := map (map (fun y => Cdivr y x)) a.
Definition mneg (a : matrix) : matrix := map (map Copp) a.

Definition mzero (r c : nat) : matrix := replicate r (replicate c C0).

(** [np.identity(n)] *)
Definition identity (n : Z) : matrix :=
  map (fun i => map (fun j => if Nat.eqb i j then C1 else C0) (seq 0 (Z.to_nat n)))
      (seq 0 (Z.to_nat n)).

Fixpoint forallb2 {A : Type} (f : A -> A -> bool) (l1 l2 : list A) : bool :=
  match l1, l2 with
  | [], [] => true
  | x :: l1, y :: l2 => f x y && forallb2 f l1 l2
  | _, _ => false
  end.

(** [np.array_equal]: same shape and same elements. *)
Definition array_equal (a b : matrix) : bool :=
  shape_eqb (shape a) (shape b) && forallb2 (forallb2 Ceqb) a b.

Definition trace (a : matrix) : C :=
  csum (map (fun i => nth i (nth i a []) C0) (seq 0 (length a))).

(** [getitem]: [a[i]] on a sequence, with Python's negative indices. *)
Definition getitem {A : Type} (a : list A) (i : Z) : result A :=
  let j := if i <? 0 then i + len a else i in
  if (0 <=? j) && (j <? len a) then
    match a !! Z.to_nat j with
    | Some x => Ok x
    | None => Raise IndexError
    end
  else Raise IndexError.

(** [for t in range(n): x = body t x], where the body may raise. *)
Definition for_range {A : Type} (n : Z) (body : Z -> A -> result A) (x : A) : result A :=
  fold_left (fun acc t => let* x := acc in body (Z.of_nat t) x)
            (seq 0 (Z.to_nat n)) (Ok x).

(** ** QubitState *)

Record QubitState : Type := { _matrix : vector; _qs : CompositeQubitSpace }.

(** [np.log2(L) == n] for an array length [L] and an integer [n]: [log2] is
    [-inf] at 0 and takes the integer value [n] exactly at [L = 2^n]. *)
Definition log2_eq (L n : Z) : bool := (0 <=? n) && (L =? 2 ^ n).

(** [QubitState.__init__].  The message of the error is built before the
    error is raised, and it reads [matrix[0]]: on an empty array that
    lookup raises [IndexError] first. *)
Definition QubitState_init (qs : CompositeQubitSpace) (matrix : vector)
  : result QubitState :=
  if negb (log2_eq (len matrix) (_n qs)) then
    let* first := getitem matrix 0 in
    Raise MatrixRepresentationError
  else Ok {| _matrix := matrix; _qs := qs |}.

(** The [density_matrix] property.  The array is created by [np.zeros]
    without a dtype, hence [float64]: storing the complex product into it
    keeps its real part.  The result is the array handed to
    [Density_Matrix]. *)
Definition density_matrix (fuel : nat) (self : QubitState) : result (list (list R)) :=
  let* onb := onb_matrices fuel (_qs self) in
  let range := seq 0 (length onb) in
  Ok (map (fun i =>
        map (fun j =>
          Re (Cmul (dot (map Cconj (map RtoC (nth i onb []))) (_matrix self))
                   (dot (map Cconj (_matrix self)) (map RtoC (nth j onb [])))))
          range)
        range).

(** What the specification asks of entry [(i, j)]: the complex number
    [<e_i|psi> * <psi|e_j>]. *)
Definition projector_entry (onb : list (list R)) (psi : vector) (i j : nat) : C :=
  Cmul (dot (map Cconj (map RtoC (nth i onb []))) psi)
       (dot (map Cconj psi) (map RtoC (nth j onb []))).

(** Attribute lookup on a [QubitState] instance.  The class sets [_matrix]
    and [_qs] in [__init__] and defines the properties [matrix] and
    [density_matrix]; it has no base class and no [__getattr__]. *)
Inductive pyvalue : Type :=
| VInt (z : Z)
| VVector (v : vector)
| VSpace (qs : CompositeQubitSpace)
| VFloatMatrix (m : list (list R)).

Definition QubitState_getattr (fuel : nat) (self : QubitState) (name : string)
  : result pyvalue :=
  if String.eqb name "_matrix" then Ok (VVector (_matrix self))
  else if String.eqb name "_qs" then Ok (VSpace (_qs self))
  else if String.eqb name "matrix" then Ok (VVector (_matrix self))
  else if String.eqb name "density_matrix" then
    let* rho := density_matrix fuel self in Ok (VFloatMatrix rho)
  else Raise AttributeError.

(** ** QubitSpace *)

Record QubitSpace : Type := {
  space :> CompositeQubitSpace;
  _base_zero : list R;
  _base_one : list R
}.

Definition QubitSpace_init : result QubitSpace :=
  let* self := CompositeQubitSpace_init 1 in
  let* zero := fst (basis_from_indices self [0]) in
  let* one := fst (basis_from_indices self [1]) in
  Ok {| space := self; _base_zero := zero; _base_one := one |}.

(** [np.linalg.norm] of a 1-D array, and [normalize]. *)
Definition vnorm (a : vector) : R :=
  sqrt (fold_right Rplus 0%R (map (fun x => (Re x * Re x + Im x * Im x)%R) a)).

Definition normalize (a : vector) : vector :=
  let norm := vnorm a in map (fun x => Cdivr x norm) a.

Definition make_state (self : QubitSpace) (alpha beta : option R)
    (coeffs : option vector) : result QubitState :=
  match alpha, beta with
  | Some alpha, Some beta =>
      let matrix :=
        vadd (vscale (RtoC (cos (beta / 2))) (map RtoC (_base_zero self)))
             (vscale (Cmul (RtoC (sin (beta / 2))) (Cexp (Cmul Ci (RtoC alpha))))
                     (map RtoC (_base_one self))) in
      QubitState_init self matrix
  | _, _ =>
      match coeffs with
      | Some coeffs =>
          if negb (len coeffs =? 2) then Raise MatrixRepresentationError
          else
            let coeffs := normalize coeffs in
            let* c0 := getitem coeffs 0 in
            let* c1 := getitem coeffs 1 in
            let matrix := vadd (vscale c0 (map RtoC (_base_zero self)))
                               (vscale c1 (map RtoC (_base_one self))) in
            QubitState_init self matrix
      | None => Raise MatrixRepresentationError
      end
  end.

(** ** NGate *)

Record NGate : Type := {
  gate_qs : CompositeQubitSpace;
  gate_n : Z;
  gate_matrix : matrix
}.

(** [NGate.__init__].  The last step, [super().__init__(x)], is the
    constructor of [Operator], which wraps the array. *)
Definition NGate_init (x : matrix) (qs : CompositeQubitSpace) : result NGate :=
  let n := _n qs in
  if negb (shape_eqb (shape x) (2 ^ n, 2 ^ n)) then Raise MatrixRepresentationError
  else if array_equal (mmul (adjoint x) x) (identity n)
  then Raise MatrixRepresentationError
  else Ok {| gate_qs := qs; gate_n := n; gate_matrix := x |}.

(** [NGate.apply]: [assert self._n == state.n], then the product. *)
Definition NGate_apply (fuel : nat) (self : NGate) (state : QubitState)
  : result vector :=
  let* n := QubitState_getattr fuel state "n" in
  match n with
  | VInt k =>
      if negb (gate_n self =? k) then Raise AssertionError
      else
        let* m := QubitState_getattr fuel state "matrix" in
        match m with
        | VVector v => Ok (mvmul (gate_matrix self) v)
        | _ => Raise ValueError
        end
  | _ => Raise AssertionError
  end.

(** [U†U = I], with [I] of the size of [U]. *)
Definition is_unitary (x : matrix) : Prop :=
  mmul (adjoint x) x = identity (len x).

Definition HADAMARD_array : matrix :=
  mscale (RtoC (1 / sqrt 2)) [[C1; C1]; [C1; RtoC (-1)]].

Definition HADAMARD : result NGate :=
  let* qs := QubitSpace_init in NGate_init HADAMARD_array qs.

Definition CNOT_array : matrix :=
  [[C1; C0; C0; C0]; [C0; C1; C0; C0]; [C0; C0; C0; C1]; [C0; C0; C1; C0]].

Definition CNOT : result NGate :=
  let* qs := CompositeQubitSpace_init 2 in NGate_init CNOT_array qs.

(** ** Operators ([operators.py]) *)

(** An operator ([Qobj]) is a square complex matrix; a sampled Hamiltonian
    is a sequence of operators. *)

Definition commutator (A B : matrix) : matrix := msub (mmul A B) (mmul B A).

Definition magnus_expansion_1st_term (h : list matrix) (time_step : R)
  : result matrix :=
  let* integral := getitem h 0 in
  let* integral :=
    for_range (len h - 2)
      (fun t integral =>
         let* x := getitem h (t + 1) in
         Ok (madd integral (mscale (RtoC 2) x)))
      integral in
  let* last := getitem h (-1) in
  let integral := mdivr (mscale_r (madd integral last) (RtoC time_step)) 2 in
  Ok (mscale (Cmul (Cmul (Copp Ci) (RtoC 2)) (RtoC PI)) integral).

Definition magnus_expansion_2nd_term (h : list matrix) (time_step : R)
  : result matrix :=
  let* h0 := getitem h 0 in
  let integral := mscale_r h0 C0 in
  let* integral :=
    for_range (len h - 1)
      (fun t1 integral =>
         for_range (t1 + 1)
           (fun t2 integral =>
              let* a := getitem h t1 in
              let* b := getitem h t2 in
              Ok (madd integral
                       (mscale_r (commutator a b) (RtoC (time_step ^ 2)%R))))
           integral)
      integral in
  Ok (mscale (RtoC ((2 * PI) ^ 2)%R) (mscale (RtoC (- (1 / 2))%R) integral)).

Definition magnus_expansion_3rd_term (h : list matrix) (time_step : R)
  : result matrix :=
  let* h0 := getitem h 0 in
  let integral := mscale_r h0 C0 in
  let* integral :=
    for_range (len h - 1)
      (fun t1 integral =>
         for_range (t1 + 1)
           (fun t2 integral =>
              for_range (t2 + 1)
                (fun t3 integral =>
                   let* a := getitem h t1 in
                   let* b := getitem h t2 in
                   let* c := getitem h t3 in
                   Ok (madd integral
                         (mscale_r
                            (madd (commutator a (commutator b c))
                                  (commutator c (commutator b a)))
                            (RtoC (time_step ^ 3)%R))))
                integral)
           integral)
      integral in
  Ok (mscale (Cmul (Cdivr Ci 6) (RtoC ((2 * PI) ^ 3)%R)) integral).

(** The weights of the trapezoidal rule on [N] samples, and the weighted
    sum they define. *)
Definition trapezoid_weight (N t : nat) : R :=
  if Nat.eqb t 0 || Nat.eqb t (N - 1) then 1%R else 2%R.

Definition trapezoid_terms (h : list matrix) : list matrix :=
  imap (fun t x => mscale (RtoC (trapezoid_weight (length h) t)) x) h.

Definition msum (first : matrix) (rest : list matrix) : matrix :=
  fold_left madd rest first.

(** [scipy.constants.Planck] and [scipy.constants.Boltzmann]. *)
Definition Planck : R := 6.62607015e-34%R.
Definition Boltzmann : R := 1.380649e-23%R.

(** [np.isclose(a, b, rtol)] with the default [atol = 1e-8]. *)
Definition isclose (a b : C) (rtol : R) : bool :=
  if Rle_dec (Cmod (Csub a b)) (1e-8 + rtol * Cmod b)%R then true else false.

Definition unit_trace (q : matrix) : bool := isclose (trace q) C1 1e-6%R.

Section Canonical.

(** [Qobj.expm] and [Qobj.norm] (the trace norm) belong to the matrix
    library and are taken as given. *)
Variable expm : matrix -> matrix.
Variable norm : matrix -> R.

(** [Qobj.unit]: the operator divided by its norm. *)
Definition unit (q : matrix) : matrix := mdivr q (norm q).

Definition canonical_exponent (hamiltonian : matrix) (temperature : R) : matrix :=
  mdivr
    (mneg
       (mscale_r
          (mscale_r
             (mscale_r (mscale (RtoC (Planck / Boltzmann)) hamiltonian) (RtoC 2))
             (RtoC PI))
          (RtoC 1e6)))
    temperature.

Definition canonical_density_matrix (hamiltonian : matrix) (temperature : R)
  : result matrix :=
  if Rle_dec temperature 0 then Raise ValueError
  else
    let exponent := canonical_exponent hamiltonian temperature in
    let numerator := expm exponent in
    let canonical_dm := unit numerator in
    Ok canonical_dm.

End Canonical.

Definition trapezoid_sum (h : list matrix) : matrix :=
  match trapezoid_terms h with
  | [] => []
  | first :: rest => msum first rest
  end.

(** The exponential and the trace norm of a 1 x 1 operator, where they are
    the scalar ones. *)
Definition expm_scalar (q : matrix) : matrix := map (map Cexp) q.
Definition norm_scalar (q : matrix) : R := Cmod (trace q).

(** Trace and symmetry of a [float64] matrix (a real matrix is Hermitian
    when it is symmetric). *)
Definition float_trace (m : list (list R)) : R :=
  fold_right Rplus 0%R (map (fun i => nth i (nth i m []) 0%R) (seq 0 (length m))).

Definition float_symmetric (m : list (list R)) : Prop :=
  forall i j, nth j (nth i m []) 0%R = nth i (nth j m []) 0%R.

(** Value of a bit sequence read most significant bit first. *)
Definition prefix_value (vec : list Z) : nat := Z.to_nat (bits_value (rev vec)).

(** The value of [QubitSpace()]. *)
Definition the_qubit_space : QubitSpace :=
  {| space := {| _n := 1 |}; _base_zero := [1%R; 0%R]; _base_one := [0%R; 1%R] |}.

(** The sum of the squared moduli of the entries: [vnorm a = sqrt (norm2 a)]. *)
Definition norm2 (a : vector) : R :=
  fold_right Rplus 0%R (map (fun x => (Re x * Re x + Im x * Im x)%R) a).

(** [hbar = h / (2 pi)], and the exponent in the words of the
    specification: [-(hbar / k_B) * H * 2 pi * 1e6 / T]. *)
Definition hbar : R := (Planck / (2 * PI))%R.

Definition exponent_as_specified (hamiltonian : matrix) (temperature : R) : matrix :=
  mscale (RtoC (- (hbar / Boltzmann * (2 * PI) * 1e6) / temperature)%R) hamiltonian.

(** On a diagonal operator the matrix library's two functions have closed
    forms: the exponential exponentiates the diagonal, and the trace norm
    (the sum of the singular values) adds up the moduli of the diagonal. *)
Definition expm_diagonal (q : matrix) : matrix :=
  map (fun i =>
         map (fun j => if Nat.eqb i j then Cexp (nth j (nth i q []) C0) else C0)
             (seq 0 (ncols q)))
      (seq 0 (length q)).

Definition norm_diagonal (q : matrix) : R :=
  fold_right Rplus 0%R
    (map (fun i => Cmod (nth i (nth i q []) C0)) (seq 0 (length q))).

(** A [d x d] operator with real diagonal and nothing off it. *)
Definition is_real_diagonal (d : nat) (q : matrix) : Prop :=
  is_matrix d d q
  /\ (forall i, (i < d)%nat -> Im (nth i (nth i q []) C0) = 0%R)
  /\ (forall i j, (i < d)%nat -> (j < d)%nat -> i <> j -> nth j (nth i q []) C0 = C0).

(** The Boltzmann weights [exp (kappa * H_ii)] and their sum. *)
Definition boltzmann_weight (kappa : R) (q : matrix) (i : nat) : R :=
  exp (kappa * Re (nth i (nth i q []) C0)).

Definition partition_sum (kappa : R) (q : matrix) : R :=
  fold_right Rplus 0%R (map (boltzmann_weight kappa q) (seq 0 (length q))).

(** The factor of the Hamiltonian in the exponent the code builds. *)
Definition thermal_factor (temperature : R) : R :=
  (- (Planck / Boltzmann * (2 * PI) * 1e6) / temperature)%R.

(* ================================================================= *)
(** * Properties *)

(** ** Lemmas on the index *)

Lemma bit_ok_spec x : bit_ok x = true <-> is_bit x.
Proof. unfold bit_ok, is_bit. rewrite andb_true_iff, !Z.leb_le. lia. Qed.

Lemma forallb_bit_ok l : forallb bit_ok l = true <-> Forall is_bit l.
Proof.
  rewrite forallb_forall, Forall_forall. setoid_rewrite <- list_elem_of_In.
  split; intros H x Hx; apply bit_ok_spec, H, Hx.
Qed.


Lemma accumulate_from rest : forall i k, 0 <= k ->
  fold_left (fun st ind => (fst st + ind * 2 ^ snd st, snd st + 1)) rest (i, k)
  = (i + 2 ^ k * bits_value rest, k + len rest).
Proof.
  induction rest as [|b rest IH]; intros i k Hk; simpl.
  - unfold len; simpl. f_equal; lia.
  - rewrite IH by lia. unfold len; simpl length.
    rewrite Z.pow_add_r by lia. f_equal; lia.
Qed.

Lemma accumulate_bits i0 rest :
  fst (accumulate rest i0) = bits_value (i0 :: rest).
Proof. unfold accumulate. rewrite accumulate_from by lia. simpl. lia. Qed.

Lemma bits_value_range l :
  Forall is_bit l -> 0 <= bits_value l < 2 ^ len l.
Proof.
  induction 1 as [|b l Hb _ IH]; unfold len in *; simpl length.
  - simpl. lia.
  - rewrite Nat2Z.inj_succ, Z.pow_succ_r by lia.
    simpl bits_value. destruct Hb; subst; lia.
Qed.

Lemma insert_replicate_unit d i :
  (i < d)%nat -> <[i := 1%R]> (replicate d 0%R) = unit_vector d i.
Proof.
  intros Hi. apply list_eq. intros j. unfold unit_vector.
  rewrite list_lookup_fmap.
  destruct (decide (j < d)%nat) as [Hj|Hj].
  - rewrite lookup_seq_lt by done. simpl.
    destruct (Nat.eqb_spec j i) as [->|Hne].
    + apply list_lookup_insert_eq. by rewrite length_replicate.
    + rewrite list_lookup_insert_ne by done. by apply lookup_replicate_2.
  - rewrite lookup_seq_ge by lia. simpl.
    apply lookup_ge_None. rewrite length_insert, length_replicate. lia.
Qed.

Lemma setitem_replicate_unit d i :
  0 <= i < Z.of_nat d ->
  setitem (replicate d 0%R) i 1%R = Ok (unit_vector d (Z.to_nat i)).
Proof.
  intros Hi. unfold setitem, len. rewrite length_replicate.
  replace ((0 <=? i) && (i <? Z.of_nat d)) with true
    by (symmetry; apply andb_true_iff; split; [apply Z.leb_le | apply Z.ltb_lt]; lia).
  f_equal. apply insert_replicate_unit. lia.
Qed.

Lemma basis_from_indices_valid self indices :
  1 <= _n self -> Forall is_bit indices -> len indices = _n self ->
  basis_from_indices self indices
  = (Ok (unit_vector (Z.to_nat (2 ^ _n self)) (Z.to_nat (bits_value (rev indices)))),
     rev indices).
Proof.
  intros Hn Hbits Hlen. unfold basis_from_indices.
  rewrite (proj2 (forallb_bit_ok indices) Hbits). simpl negb. cbv iota.
  rewrite (proj2 (Z.eqb_eq _ _) Hlen). simpl negb. cbv iota.
  assert (Hrev : Forall is_bit (rev indices)) by (by apply Forall_rev).
  assert (Hlr : len (rev indices) = _n self)
    by (unfold len in *; by rewrite length_rev).
  destruct (rev indices) as [|i0 rest] eqn:E.
  - unfold len in Hlr; simpl in Hlr. lia.
  - rewrite accumulate_bits. f_equal.
    apply setitem_replicate_unit.
    pose proof (bits_value_range _ Hrev) as Hr. rewrite Hlr in Hr.
    rewrite Z2Nat.id by (apply Z.pow_nonneg; lia). exact Hr.
Qed.

Lemma basis_from_indices_bad_bit self indices :
  ~ Forall is_bit indices ->
  basis_from_indices self indices = (Raise MatrixRepresentationError, indices).
Proof.
  intros Hbad. unfold basis_from_indices.
  destruct (forallb bit_ok indices) eqn:E; [|reflexivity].
  exfalso. by apply Hbad, forallb_bit_ok.
Qed.

Lemma basis_from_indices_bad_length self indices :
  len indices <> _n self ->
  basis_from_indices self indices = (Raise MatrixRepresentationError, indices).
Proof.
  intros Hbad. unfold basis_from_indices.
  destruct (forallb bit_ok indices); [|reflexivity]. simpl negb. cbv iota.
  by rewrite (proj2 (Z.eqb_neq _ _) Hbad).
Qed.

(** C4.  On a space with [n >= 1], [basis_from_indices] raises the
    representation error exactly when some entry is neither 0 nor 1 or the
    number of entries is not [n]; otherwise it returns the vector of length
    [2^n] whose single 1 sits at the index read off the reversed bit
    sequence, [sum_k reversed[k] * 2^k], which lies in [0, 2^n). *)
Theorem basis_from_indices_spec (self : CompositeQubitSpace) (indices : list Z) :
  1 <= _n self ->
  (fst (basis_from_indices self indices) = Raise MatrixRepresentationError
   <-> (~ Forall is_bit indices \/ len indices <> _n self))
  /\ (Forall is_bit indices -> len indices = _n self ->
      0 <= bits_value (rev indices) < 2 ^ _n self
      /\ fst (basis_from_indices self indices)
         = Ok (unit_vector (Z.to_nat (2 ^ _n self))
                           (Z.to_nat (bits_value (rev indices))))).
Proof.
  intros Hn. split.
  - split.
    + intros Hraise.
      destruct (decide (Forall is_bit indices)) as [Hb|Hb]; [|by left].
      destruct (decide (len indices = _n self)) as [Hl|Hl]; [|by right].
      rewrite basis_from_indices_valid in Hraise by done. discriminate.
    + intros [Hb|Hl].
      * by rewrite basis_from_indices_bad_bit.
      * by rewrite basis_from_indices_bad_length.
  - intros Hb Hl. split.
    + assert (Hrev : Forall is_bit (rev indices)) by (by apply Forall_rev).
      pose proof (bits_value_range _ Hrev) as Hr.
      unfold len in *. rewrite length_rev, Hl in Hr. exact Hr.
    + by rewrite basis_from_indices_valid.
Qed.

Lemma basis_from_indices_spec_witness :
  let self := {| _n := 2 |} in
  fst (basis_from_indices self [0; 1]) = Ok [0%R; 1%R; 0%R; 0%R].
Proof.
  intros self.
  destruct (basis_from_indices_spec self [0; 1]) as [_ H]; [simpl; lia|].
  destruct H as [_ H].
  - repeat constructor; unfold is_bit; lia.
  - reflexivity.
  - exact H.
Defined.

(** ** The caller's list *)

(** C9, as stated, fails: the valid sequence [0; 1] handed to a two-qubit
    space comes back as [1; 0]. *)
Lemma basis_from_indices_mutates_argument :
  let self := {| _n := 2 |} in
  let indices := [0; 1] in
  Forall is_bit indices /\ len indices = _n self
  /\ snd (basis_from_indices self indices) <> indices.
Proof.
  simpl. split; [|split].
  - repeat constructor; unfold is_bit; lia.
  - reflexivity.
  - discriminate.
Qed.

(** C9, amended.  The returned vector is a function of the space and the
    bit sequence alone, but the call is not free of effects: on every valid
    bit sequence it leaves the caller's list reversed (so unchanged exactly
    when the sequence reads the same in both directions); when validation
    fails the list is left as it was. *)
Theorem basis_from_indices_reverses_argument
    (self : CompositeQubitSpace) (indices : list Z) :
  1 <= _n self ->
  (Forall is_bit indices /\ len indices = _n self ->
     snd (basis_from_indices self indices) = rev indices
     /\ (snd (basis_from_indices self indices) = indices <-> rev indices = indices))
  /\ (~ (Forall is_bit indices /\ len indices = _n self) ->
     snd (basis_from_indices self indices) = indices).
Proof.
  intros Hn. split.
  - intros [Hb Hl]. rewrite basis_from_indices_valid by done. simpl. done.
  - intros Hbad.
    destruct (decide (Forall is_bit indices)) as [Hb|Hb].
    + rewrite basis_from_indices_bad_length; [done|]. intros Hl. by apply Hbad.
    + by rewrite basis_from_indices_bad_bit.
Qed.

Lemma basis_from_indices_reverses_argument_witness :
  snd (basis_from_indices {| _n := 3 |} [0; 1; 1]) = [1; 1; 0].
Proof.
  destruct (basis_from_indices_reverses_argument {| _n := 3 |} [0; 1; 1])
    as [H _]; [simpl; lia|].
  destruct H as [H _].
  - split; [repeat constructor; unfold is_bit; lia | reflexivity].
  - exact H.
Defined.

(** ** Enumeration of the basis *)

Lemma prefix_value_snoc vec bit :
  Forall is_bit vec -> is_bit bit ->
  prefix_value (vec ++ [bit]) = (Z.to_nat bit + 2 * prefix_value vec)%nat.
Proof.
  intros Hv Hb. unfold prefix_value. rewrite rev_app_distr. simpl.
  assert (Hrev : Forall is_bit (rev vec)) by (by apply Forall_rev).
  pose proof (bits_value_range _ Hrev) as Hr.
  destruct Hb; subst; lia.
Qed.

Lemma pow2_to_nat (k : nat) : Z.to_nat (2 ^ Z.of_nat k) = (2 ^ k)%nat.
Proof.
  rewrite <- (Nat2Z.id (2 ^ k)). f_equal. by rewrite Nat2Z.inj_pow.
Qed.

Lemma add_bit_enum self :
  1 <= _n self ->
  forall (m fuel : nat) bit vec matrices,
    Forall is_bit vec -> is_bit bit ->
    len vec + 1 + Z.of_nat m = _n self -> (m < fuel)%nat ->
    add_bit fuel self bit vec matrices
    = Ok (matrices ++ map (unit_vector (Z.to_nat (2 ^ _n self)))
                          (seq (prefix_value (vec ++ [bit]) * 2 ^ m) (2 ^ m))).
Proof.
  intros Hn. induction m as [|m IH]; intros fuel bit vec matrices Hv Hb Hl Hf;
    (destruct fuel as [|fuel]; [lia|]); simpl add_bit;
    assert (Hnew : Forall is_bit (vec ++ [bit]))
      by (apply Forall_app; split; [done | by constructor]);
    assert (Hlen : len (vec ++ [bit]) = len vec + 1)
      by (unfold len; rewrite length_app; simpl; lia).
  - rewrite (proj2 (Z.eqb_eq _ _)) by lia.
    rewrite basis_from_indices_valid by (done || lia). simpl.
    rewrite Nat.mul_1_r. reflexivity.
  - rewrite (proj2 (Z.eqb_neq _ _)) by lia.
    rewrite (IH fuel 0 (vec ++ [bit]) matrices) by (done || (by left) || lia).
    simpl rbind.
    rewrite (IH fuel 1 (vec ++ [bit])) by (done || (by right) || lia).
    rewrite <- app_assoc, <- map_app. do 3 f_equal.
    rewrite (prefix_value_snoc (vec ++ [bit]) 0) by (done || by left).
    rewrite (prefix_value_snoc (vec ++ [bit]) 1) by (done || by right).
    change (Z.to_nat 0) with 0%nat. change (Z.to_nat 1) with 1%nat.
    set (v := prefix_value (vec ++ [bit])).
    replace ((1 + 2 * v) * 2 ^ m)%nat with ((0 + 2 * v) * 2 ^ m + 2 ^ m)%nat by lia.
    rewrite <- seq_app. f_equal; simpl; lia.
Qed.

Lemma onb_matrices_standard self fuel :
  1 <= _n self -> (Z.to_nat (_n self) <= fuel)%nat ->
  onb_matrices fuel self = Ok (standard_basis (Z.to_nat (2 ^ _n self))).
Proof.
  intros Hn Hf. unfold onb_matrices.
  set (m := Z.to_nat (_n self - 1)).
  rewrite (add_bit_enum self Hn m fuel 0 [] [])
    by (try constructor; try (by left); unfold len; simpl; lia).
  simpl rbind.
  rewrite (add_bit_enum self Hn m fuel 1 [])
    by (try constructor; try (by right); unfold len; simpl; lia).
  f_equal. unfold standard_basis. simpl app at 1.
  rewrite <- map_app. f_equal.
  change (prefix_value ([] ++ [0])) with 0%nat.
  change (prefix_value ([] ++ [1])) with 1%nat.
  transitivity (seq 0 (2 ^ m + 2 ^ m)).
  - rewrite seq_app. do 2 f_equal; lia.
  - f_equal. replace (_n self) with (Z.of_nat (S m)) by lia.
    rewrite pow2_to_nat. simpl. lia.
Qed.

Lemma unit_vector_lookup d i j :
  (j < d)%nat -> unit_vector d i !! j = Some (if Nat.eqb j i then 1%R else 0%R).
Proof.
  intros Hj. unfold unit_vector.
  rewrite list_lookup_fmap, lookup_seq_lt by done. reflexivity.
Qed.

Lemma unit_vector_length d i : length (unit_vector d i) = d.
Proof. unfold unit_vector. by rewrite length_map, length_seq. Qed.

Lemma unit_vector_inj d i j :
  (i < d)%nat -> unit_vector d i = unit_vector d j -> i = j.
Proof.
  intros Hi Heq.
  assert (H : unit_vector d i !! i = unit_vector d j !! i) by (by rewrite Heq).
  rewrite !unit_vector_lookup in H by done.
  rewrite Nat.eqb_refl in H.
  destruct (Nat.eqb_spec i j) as [->|_]; [done|].
  inversion H as [H1]. exfalso. by apply R1_neq_R0.
Qed.

Lemma standard_basis_length d : length (standard_basis d) = d.
Proof. unfold standard_basis. by rewrite length_map, length_seq. Qed.

Lemma standard_basis_lookup d i :
  (i < d)%nat -> standard_basis d !! i = Some (unit_vector d i).
Proof.
  intros Hi. unfold standard_basis.
  rewrite list_lookup_fmap, lookup_seq_lt by done. reflexivity.
Qed.

Lemma standard_basis_NoDup d : NoDup (standard_basis d).
Proof.
  unfold standard_basis. apply NoDup_fmap_2_strong; [|apply NoDup_seq].
  intros i j Hi _ Heq. apply elem_of_seq in Hi.
  apply (unit_vector_inj d); [lia | done].
Qed.

(** Reading bits is one-to-one and onto [0, 2^k) on sequences of [k] bits. *)
Lemma bits_value_inj l1 : forall l2,
  Forall is_bit l1 -> Forall is_bit l2 -> length l1 = length l2 ->
  bits_value l1 = bits_value l2 -> l1 = l2.
Proof.
  induction l1 as [|a l1 IH]; intros [|b l2] H1 H2 Hlen Hv; simpl in *; try done.
  inversion H1 as [|? ? Ha H1']; inversion H2 as [|? ? Hb H2']; subst.
  assert (a = b) by (destruct Ha, Hb; subst; lia). subst b.
  f_equal. apply IH; try done; lia.
Qed.

Lemma bits_value_surj (k : nat) : forall i,
  0 <= i < 2 ^ Z.of_nat k ->
  exists l, Forall is_bit l /\ length l = k /\ bits_value l = i.
Proof.
  induction k as [|k IH]; intros i Hi.
  - exists []. simpl in *. repeat split; [constructor | lia].
  - rewrite Nat2Z.inj_succ, Z.pow_succ_r in Hi by lia.
    destruct (IH (i / 2)) as (l & Hl & Hlen & Hv).
    { split; [apply Z.div_pos; lia | apply Z.div_lt_upper_bound; lia]. }
    exists (i mod 2 :: l). repeat split.
    + constructor; [|done]. unfold is_bit.
      pose proof (Z.mod_pos_bound i 2). lia.
    + simpl. by rewrite Hlen.
    + simpl. rewrite Hv. pose proof (Z.div_mod i 2). lia.
Qed.

(** C5.  On a space with [n >= 1] (and a recursion limit of at least [n])
    [onb_matrices] returns [2^n] pairwise distinct vectors, the one at
    position [i] being the unit vector with its 1 at index [i]; the vector
    that [basis_from_indices] builds from a bit sequence sits at the
    position that sequence denotes, and every position is denoted by
    exactly one sequence of [n] bits. *)
Theorem onb_matrices_spec (self : CompositeQubitSpace) (fuel : nat) :
  1 <= _n self -> (Z.to_nat (_n self) <= fuel)%nat ->
  exists onb,
    onb_matrices fuel self = Ok onb
    /\ len onb = 2 ^ _n self
    /\ NoDup onb
    /\ (forall i, (i < length onb)%nat ->
          onb !! i = Some (unit_vector (length onb) i))
    /\ (forall bits, Forall is_bit bits -> len bits = _n self ->
          exists b, fst (basis_from_indices self bits) = Ok b
                    /\ onb !! Z.to_nat (bits_value (rev bits)) = Some b)
    /\ (forall i b, onb !! i = Some b ->
          exists bits,
            (Forall is_bit bits /\ len bits = _n self
             /\ fst (basis_from_indices self bits) = Ok b)
            /\ forall bits', Forall is_bit bits' -> len bits' = _n self ->
                  fst (basis_from_indices self bits') = Ok b -> bits' = bits).
Proof.
  intros Hn Hf. set (d := Z.to_nat (2 ^ _n self)).
  assert (Hd : Z.of_nat d = 2 ^ _n self)
    by (unfold d; rewrite Z2Nat.id; [done | apply Z.pow_nonneg; lia]).
  assert (Hrange : forall bits, Forall is_bit bits -> len bits = _n self ->
            (Z.to_nat (bits_value (rev bits)) < d)%nat
            /\ 0 <= bits_value (rev bits)).
  { intros bits Hb Hl.
    assert (Hrev : Forall is_bit (rev bits)) by (by apply Forall_rev).
    pose proof (bits_value_range _ Hrev) as Hr.
    unfold len in *. rewrite length_rev, Hl in Hr. lia. }
  exists (standard_basis d). rewrite standard_basis_length.
  split; [by apply onb_matrices_standard|].
  split; [unfold len; by rewrite standard_basis_length|].
  split; [apply standard_basis_NoDup|].
  split; [intros i Hi; by apply standard_basis_lookup|].
  split.
  - intros bits Hb Hl. eexists. rewrite basis_from_indices_valid by done.
    split; [reflexivity|]. apply standard_basis_lookup. by apply Hrange.
  - intros i b Hib.
    assert (Hi : (i < d)%nat).
    { apply lookup_lt_Some in Hib. by rewrite standard_basis_length in Hib. }
    rewrite standard_basis_lookup in Hib by done. inversion Hib; subst b; clear Hib.
    destruct (bits_value_surj (Z.to_nat (_n self)) (Z.of_nat i))
      as (l & Hl & Hlen & Hv); [rewrite Z2Nat.id by lia; lia|].
    assert (Hvalid : Forall is_bit (rev l) /\ len (rev l) = _n self).
    { split; [by apply Forall_rev | unfold len; rewrite length_rev; lia]. }
    destruct Hvalid as [Hb1 Hl1].
    exists (rev l). split.
    + repeat split; try done.
      rewrite basis_from_indices_valid by done. simpl.
      rewrite rev_involutive, Hv, Nat2Z.id. reflexivity.
    + intros bits' Hb' Hl' Hfst.
      rewrite basis_from_indices_valid in Hfst by done. simpl in Hfst.
      inversion Hfst as [Heq]. apply unit_vector_inj in Heq; [|by apply Hrange].
      rewrite <- (rev_involutive bits'). f_equal.
      apply bits_value_inj; try done.
      * by apply Forall_rev.
      * rewrite length_rev. unfold len in Hl'. lia.
      * destruct (Hrange bits' Hb' Hl'). lia.
Qed.

Lemma onb_matrices_spec_witness :
  exists onb, onb_matrices 2 {| _n := 2 |} = Ok onb /\ len onb = 4.
Proof.
  destruct (onb_matrices_spec {| _n := 2 |} 2) as (onb & Hrun & Hlen & _).
  - simpl. lia.
  - simpl. lia.
  - exists onb. split; [exact Hrun | exact Hlen].
Defined.

(** ** QubitState construction *)

Lemma log2_eq_spec L n : 1 <= n -> log2_eq L n = true <-> L = 2 ^ n.
Proof.
  intros Hn. unfold log2_eq. rewrite andb_true_iff, Z.leb_le, Z.eqb_eq. lia.
Qed.

Lemma getitem_first {A : Type} (x : A) (l : list A) : getitem (x :: l) 0 = Ok x.
Proof.
  unfold getitem, len. simpl length. rewrite Nat2Z.inj_succ.
  change (0 <? 0) with false. cbv iota.
  replace ((0 <=? 0) && (0 <? Z.succ (Z.of_nat (length l)))) with true
    by (symmetry; apply andb_true_iff; split; [apply Z.leb_le | apply Z.ltb_lt]; lia).
  reflexivity.
Qed.

(** C10.  On a space with [n >= 1], constructing a [QubitState] succeeds
    for every vector of length [2^n], whatever its entries, and stores the
    vector as given; it raises exactly when the length is not [2^n]: the
    representation error on a non-empty vector, and [IndexError] on the
    empty one, whose first entry the error message tries to read.  No norm
    is looked at: the zero vector of the right length is accepted. *)
Theorem QubitState_init_spec (qs : CompositeQubitSpace) (matrix : vector) :
  1 <= _n qs ->
  (len matrix = 2 ^ _n qs ->
     QubitState_init qs matrix = Ok {| _matrix := matrix; _qs := qs |})
  /\ (len matrix <> 2 ^ _n qs -> matrix <> [] ->
     QubitState_init qs matrix = Raise MatrixRepresentationError)
  /\ (matrix = [] -> QubitState_init qs matrix = Raise IndexError)
  /\ ((exists e, QubitState_init qs matrix = Raise e) <-> len matrix <> 2 ^ _n qs)
  /\ QubitState_init qs (replicate (Z.to_nat (2 ^ _n qs)) C0)
     = Ok {| _matrix := replicate (Z.to_nat (2 ^ _n qs)) C0; _qs := qs |}.
Proof.
  intros Hn.
  assert (Hpow : 2 <= 2 ^ _n qs).
  { change 2 with (2 ^ 1) at 1. apply Z.pow_le_mono_r; lia. }
  assert (Hok : forall m, len m = 2 ^ _n qs ->
            QubitState_init qs m = Ok {| _matrix := m; _qs := qs |}).
  { intros m Hm. unfold QubitState_init.
    by rewrite (proj2 (log2_eq_spec _ _ Hn) Hm). }
  assert (Hbad : forall m, len m <> 2 ^ _n qs ->
            QubitState_init qs m
            = (let* first := getitem m 0 in Raise MatrixRepresentationError)).
  { intros m Hm. unfold QubitState_init.
    destruct (log2_eq (len m) (_n qs)) eqn:E; [|done].
    exfalso. by apply Hm, log2_eq_spec. }
  split; [apply Hok|]. split; [|split; [|split]].
  - intros Hlen Hne. rewrite Hbad by done.
    destruct matrix as [|x m]; [done|]. by rewrite getitem_first.
  - intros ->. rewrite Hbad; [reflexivity|]. unfold len. simpl. lia.
  - split.
    + intros [e He] Hlen. rewrite Hok in He by done. discriminate.
    + intros Hlen. rewrite Hbad by done.
      destruct matrix as [|x m].
      * by exists IndexError.
      * exists MatrixRepresentationError. by rewrite getitem_first.
  - apply Hok. unfold len. rewrite length_replicate, Z2Nat.id; [done|].
    apply Z.pow_nonneg. lia.
Qed.

Lemma QubitState_init_spec_witness :
  QubitState_init {| _n := 1 |} [RtoC 3; RtoC 4]
  = Ok {| _matrix := [RtoC 3; RtoC 4]; _qs := {| _n := 1 |} |}.
Proof.
  destruct (QubitState_init_spec {| _n := 1 |} [RtoC 3; RtoC 4]) as [H _].
  - simpl. lia.
  - apply H. reflexivity.
Defined.

(** ** NGate construction *)

Lemma mmul_shape (a b : matrix) :
  a <> [] -> shape (mmul a b) = (len a, Z.of_nat (ncols b)).
Proof.
  intros Ha. destruct a as [|row a]; [done|].
  unfold shape, len, ncols, mmul. simpl.
  by rewrite !length_map, length_seq.
Qed.

Lemma adjoint_length (x : matrix) : length (adjoint x) = ncols x.
Proof. unfold adjoint, transpose. by rewrite !length_map, length_seq. Qed.

Lemma identity_rows (n : Z) : 0 <= n -> fst (shape (identity n)) = n.
Proof.
  intros Hn. unfold shape, identity, len. simpl.
  rewrite length_map, length_seq. lia.
Qed.

Lemma gram_never_identity (x : matrix) (n : Z) :
  0 <= n -> shape x = (2 ^ n, 2 ^ n) ->
  array_equal (mmul (adjoint x) x) (identity n) = false.
Proof.
  intros Hn Hx. unfold array_equal.
  assert (Hc : Z.of_nat (ncols x) = 2 ^ n) by (by inversion Hx).
  assert (Hpos : 0 < 2 ^ n) by (apply Z.pow_pos_nonneg; lia).
  rewrite mmul_shape.
  - unfold shape_eqb. rewrite identity_rows by done. simpl fst.
    unfold len. rewrite adjoint_length, Hc.
    pose proof (Z.pow_gt_lin_r 2 n ltac:(lia) Hn).
    rewrite (proj2 (Z.eqb_neq _ _)) by lia. reflexivity.
  - intros E. apply (f_equal (@length _)) in E.
    rewrite adjoint_length in E. simpl in E. lia.
Qed.

(** The unitarity test never fires: every array of the right shape is
    accepted. *)
Lemma NGate_init_shape_only (x : matrix) (qs : CompositeQubitSpace) :
  0 <= _n qs -> shape x = (2 ^ _n qs, 2 ^ _n qs) ->
  NGate_init x qs = Ok {| gate_qs := qs; gate_n := _n qs; gate_matrix := x |}.
Proof.
  intros Hn Hx. unfold NGate_init. rewrite Hx.
  unfold shape_eqb at 1. simpl fst. simpl snd. rewrite Z.eqb_refl. simpl.
  by rewrite gram_never_identity.
Qed.

Lemma QubitSpace_init_value :
  QubitSpace_init
  = Ok {| space := {| _n := 1 |};
          _base_zero := [1%R; 0%R]; _base_one := [0%R; 1%R] |}.
Proof. reflexivity. Qed.

(** C1 at the input [2 * I] on the single-qubit space: the array has the
    right shape and is not unitary, and the constructor returns a gate. *)
Theorem NGate_init_accepts_nonunitary :
  let x := [[RtoC 2; C0]; [C0; RtoC 2]] in
  exists qs,
    QubitSpace_init = Ok qs
    /\ shape x = (2 ^ _n qs, 2 ^ _n qs)
    /\ ~ is_unitary x
    /\ NGate_init x qs = Ok {| gate_qs := qs; gate_n := 1; gate_matrix := x |}.
Proof.
  intros x. eexists. split; [apply QubitSpace_init_value|].
  split; [reflexivity|]. split.
  - unfold is_unitary. intros H.
    apply (f_equal (fun m => Re (nth 0 (nth 0 m []) C0))) in H.
    simpl in H. lra.
  - apply (NGate_init_shape_only x); [simpl; lia | reflexivity].
Qed.

(** ** NGate.apply *)

Lemma QubitState_has_no_n fuel (state : QubitState) :
  QubitState_getattr fuel state "n" = Raise AttributeError.
Proof. reflexivity. Qed.

Lemma NGate_apply_raises fuel (gate : NGate) (state : QubitState) :
  NGate_apply fuel gate state = Raise AttributeError.
Proof. reflexivity. Qed.

Lemma HADAMARD_value :
  HADAMARD = Ok {| gate_qs := {| _n := 1 |}; gate_n := 1;
                   gate_matrix := HADAMARD_array |}.
Proof.
  unfold HADAMARD. rewrite QubitSpace_init_value. simpl rbind.
  apply NGate_init_shape_only; [simpl; lia | reflexivity].
Qed.

(** C2 at the state [|0>] built from the coefficients [1, 0]: the gate
    and the state are constructed, and [apply] stops at [state.n] with an
    [AttributeError] instead of returning the product. *)
Theorem HADAMARD_apply_raises (fuel : nat) :
  exists qs gate ket0,
    QubitSpace_init = Ok qs
    /\ HADAMARD = Ok gate
    /\ make_state qs None None (Some [C1; C0]) = Ok ket0
    /\ NGate_apply fuel gate ket0 = Raise AttributeError.
Proof.
  do 3 eexists. split; [apply QubitSpace_init_value|].
  split; [apply HADAMARD_value|]. split; reflexivity.
Qed.

(** ** Density matrix of a single-qubit state *)

Lemma C_eq (a b : C) : Re a = Re b -> Im a = Im b -> a = b.
Proof. destruct a, b; simpl; intros -> ->; reflexivity. Qed.

Lemma Cexp_i (alpha : R) : Cexp (Cmul Ci (RtoC alpha)) = mkC (cos alpha) (sin alpha).
Proof.
  unfold Cexp, Cmul, Ci, RtoC; simpl.
  replace (0 * alpha - 1 * 0)%R with 0%R by ring.
  replace (0 * 0 + 1 * alpha)%R with alpha by ring.
  rewrite exp_0. apply C_eq; simpl; ring.
Qed.

Lemma make_state_angles (alpha beta : R) (coeffs : option vector) :
  make_state the_qubit_space (Some alpha) (Some beta) coeffs
  = Ok {| _matrix := [mkC (cos (beta / 2)) 0;
                      mkC (sin (beta / 2) * cos alpha) (sin (beta / 2) * sin alpha)];
          _qs := {| _n := 1 |} |}.
Proof.
  unfold make_state. rewrite Cexp_i.
  unfold QubitState_init. simpl. do 2 f_equal.
  f_equal; [|f_equal]; apply C_eq; simpl; ring.
Qed.

Lemma onb_single_qubit fuel :
  onb_matrices (S fuel) {| _n := 1 |} = Ok [[1%R; 0%R]; [0%R; 1%R]].
Proof. reflexivity. Qed.

Lemma density_matrix_single_qubit fuel (a b : C) :
  density_matrix (S fuel) {| _matrix := [a; b]; _qs := {| _n := 1 |} |}
  = Ok [[(Re a * Re a + Im a * Im a)%R; (Re a * Re b + Im a * Im b)%R];
        [(Re b * Re a + Im b * Im a)%R; (Re b * Re b + Im b * Im b)%R]].
Proof.
  unfold density_matrix. rewrite onb_single_qubit. simpl.
  repeat f_equal; ring.
Qed.

Lemma projector_entry_single_qubit_01 (a b : C) :
  projector_entry [[1%R; 0%R]; [0%R; 1%R]] [a; b] 0 1 = Cmul a (Cconj b).
Proof.
  unfold projector_entry. simpl. apply C_eq; simpl; ring.
Qed.

Lemma half_angle : (PI / 2 / 2 = PI / 4)%R.
Proof. field. Qed.

Lemma sqrt2_inv_sq : (1 / sqrt 2 * (1 / sqrt 2) = 1 / 2)%R.
Proof.
  assert (H : (sqrt 2 * sqrt 2 = 2)%R) by (apply sqrt_sqrt; lra).
  assert (Hne : (sqrt 2 <> 0)%R) by (intros E; rewrite E in H; lra).
  field_simplify_eq; [|done]. rewrite <- H at 1. ring.
Qed.

(** C3 at the state built from the angles [alpha = beta = pi/2], that is
    [(|0> + i|1>)/sqrt 2]: the state and its density matrix are built, the
    entry the code stores at [(0, 1)] is [0], while
    [<e_0|psi> * <psi|e_1>] is [-i/2]. *)
Theorem density_matrix_drops_imaginary_part (fuel : nat) :
  exists (ket : QubitState) (onb rho : list (list R)),
    make_state the_qubit_space (Some (PI / 2)%R) (Some (PI / 2)%R) None = Ok ket
    /\ onb_matrices (S fuel) (_qs ket) = Ok onb
    /\ density_matrix (S fuel) ket = Ok rho
    /\ nth 1 (nth 0 rho []) 0%R = 0%R
    /\ projector_entry onb (_matrix ket) 0 1 = mkC 0 (- (1 / 2))
    /\ RtoC (nth 1 (nth 0 rho []) 0%R) <> projector_entry onb (_matrix ket) 0 1.
Proof.
  do 3 eexists. split; [apply make_state_angles|].
  split; [apply onb_single_qubit|].
  split; [apply density_matrix_single_qubit|].
  cbn [_matrix _qs nth].
  rewrite projector_entry_single_qubit_01.
  rewrite half_angle, cos_PI4, sin_PI4, cos_PI2, sin_PI2.
  assert (H01 : (1 / sqrt 2 * (1 / sqrt 2 * 0) + 0 * (1 / sqrt 2 * 1) = 0)%R) by ring.
  assert (Hp : Cmul (mkC (1 / sqrt 2) 0) (Cconj (mkC (1 / sqrt 2 * 0) (1 / sqrt 2 * 1)))
               = mkC 0 (- (1 / 2))).
  { apply C_eq; simpl; [ring|].
    rewrite <- sqrt2_inv_sq. ring. }
  cbn [Re Im]. rewrite H01, Hp.
  split; [reflexivity|]. split; [reflexivity|].
  intros E. apply (f_equal Im) in E. simpl in E. lra.
Qed.

(** ** Sequences and loops *)

Lemma getitem_lookup {A : Type} (l : list A) (i : nat) (x : A) :
  l !! i = Some x -> getitem l (Z.of_nat i) = Ok x.
Proof.
  intros Hx. pose proof (lookup_lt_Some _ _ _ Hx) as Hlt.
  unfold getitem, len.
  rewrite (proj2 (Z.ltb_ge _ _)) by lia.
  replace ((0 <=? Z.of_nat i) && (Z.of_nat i <? Z.of_nat (length l))) with true
    by (symmetry; apply andb_true_iff; split; [apply Z.leb_le | apply Z.ltb_lt]; lia).
  by rewrite Nat2Z.id, Hx.
Qed.

Lemma getitem_last {A : Type} (l : list A) (x : A) :
  getitem (l ++ [x]) (-1) = Ok x.
Proof.
  unfold getitem, len. rewrite length_app. simpl length.
  change (-1 <? 0) with true. cbv iota.
  replace (-1 + Z.of_nat (length l + 1)) with (Z.of_nat (length l)) by lia.
  replace ((0 <=? Z.of_nat (length l)) && (Z.of_nat (length l) <? Z.of_nat (length l + 1)))
    with true
    by (symmetry; apply andb_true_iff; split; [apply Z.leb_le | apply Z.ltb_lt]; lia).
  rewrite Nat2Z.id, lookup_app_r by lia.
  by rewrite Nat.sub_diag.
Qed.

Lemma for_range_unfold {A : Type} (n : nat) (body : Z -> A -> result A) (x : A) :
  for_range (Z.of_nat n) body x
  = fold_left (fun acc t => let* x := acc in body (Z.of_nat t) x) (seq 0 n) (Ok x).
Proof. unfold for_range. by rewrite Nat2Z.id. Qed.

(** A loop whose every step leaves [x] as it is returns [x]. *)
Lemma for_range_fixed {A : Type} (n : Z) (body : Z -> A -> result A) (x : A) :
  (forall t, 0 <= t < n -> body t x = Ok x) -> for_range n body x = Ok x.
Proof.
  intros Hbody. unfold for_range.
  assert (H : forall k s, (s + k <= Z.to_nat n)%nat ->
            fold_left (fun acc t => let* x := acc in body (Z.of_nat t) x)
                      (seq s k) (Ok x) = Ok x).
  { induction k as [|k IH]; intros s Hs; simpl; [done|].
    rewrite Hbody by lia. apply IH. lia. }
  apply H. lia.
Qed.

(** A loop that reads [l[t + off]] at step [t] folds over that slice. *)
Lemma for_range_slice {A B : Type} (h : list B) (f : A -> B -> A) (off : Z)
    (mid : list B) :
  forall (s : nat) (x : A),
    (forall t y, mid !! t = Some y -> getitem h (Z.of_nat (s + t) + off) = Ok y) ->
    fold_left (fun acc t => let* x := acc in
                 (let* y := getitem h (Z.of_nat t + off) in Ok (f x y)))
              (seq s (length mid)) (Ok x)
    = Ok (fold_left f mid x).
Proof.
  induction mid as [|m mid IH]; intros s x Hget; simpl; [done|].
  pose proof (Hget 0%nat m eq_refl) as H0. rewrite Nat.add_0_r in H0.
  rewrite H0. simpl rbind.
  apply IH. intros t y Hy.
  replace (S s + t)%nat with (s + S t)%nat by lia. by apply Hget.
Qed.

(** ** First Magnus term *)

Lemma Cmul_1_l (x : C) : Cmul (RtoC 1) x = x.
Proof. destruct x. apply C_eq; simpl; ring. Qed.

Lemma mscale_1 (a : matrix) : mscale (RtoC 1) a = a.
Proof.
  unfold mscale. rewrite <- (map_id a) at 2.
  apply map_ext. intros row. rewrite <- (map_id row) at 2.
  apply map_ext. apply Cmul_1_l.
Qed.

Lemma half_step (a : matrix) (dt : R) :
  mdivr (mscale_r a (RtoC dt)) 2 = mscale (RtoC (dt / 2)) a.
Proof.
  unfold mdivr, mscale_r, mscale. rewrite map_map.
  apply map_ext. intros row. rewrite map_map.
  apply map_ext. intros x. apply C_eq; simpl; field.
Qed.

Lemma minus_i_two_pi :
  Cmul (Cmul (Copp Ci) (RtoC 2)) (RtoC PI) = Cmul (Copp Ci) (RtoC (2 * PI)).
Proof. apply C_eq; simpl; ring. Qed.

Lemma trapezoid_terms_split (h0 hl : matrix) (mid : list matrix) :
  trapezoid_terms (h0 :: mid ++ [hl])
  = h0 :: map (mscale (RtoC 2)) mid ++ [hl].
Proof.
  unfold trapezoid_terms. rewrite imap_cons, imap_app.
  set (N := length (h0 :: mid ++ [hl])).
  assert (HN : N = (length mid + 2)%nat)
    by (unfold N; simpl; rewrite length_app; simpl; lia).
  f_equal; [|f_equal].
  - unfold trapezoid_weight. simpl. apply mscale_1.
  - rewrite <- (imap_const (mscale (RtoC 2))). apply imap_ext.
    intros i x Hx. apply lookup_lt_Some in Hx. unfold compose, const.
    unfold trapezoid_weight.
    replace (Nat.eqb (S i) 0 || Nat.eqb (S i) (N - 1)) with false; [done|].
    symmetry. apply orb_false_iff. split; apply Nat.eqb_neq; lia.
  - simpl. f_equal. unfold trapezoid_weight.
    replace (Nat.eqb (S (length mid + 0)) 0 || Nat.eqb (S (length mid + 0)) (N - 1))
      with true; [apply mscale_1|].
    symmetry. apply orb_true_iff. right. apply Nat.eqb_eq. lia.
Qed.

Lemma fold_scaled (mid : list matrix) : forall x,
  fold_left (fun acc y => madd acc (mscale (RtoC 2) y)) mid x
  = fold_left madd (map (mscale (RtoC 2)) mid) x.
Proof. induction mid as [|m mid IH]; intros x; simpl; [done | apply IH]. Qed.

Lemma magnus_1st_split (h0 hl : matrix) (mid : list matrix) (time_step : R) :
  magnus_expansion_1st_term (h0 :: mid ++ [hl]) time_step
  = Ok (mscale (Cmul (Copp Ci) (RtoC (2 * PI)))
          (mscale (RtoC (time_step / 2))
             (trapezoid_sum (h0 :: mid ++ [hl])))).
Proof.
  unfold magnus_expansion_1st_term, trapezoid_sum.
  rewrite trapezoid_terms_split.
  change (getitem (h0 :: mid ++ [hl]) 0) with (Ok (A:=matrix) h0). simpl rbind.
  replace (len (h0 :: mid ++ [hl]) - 2) with (Z.of_nat (length mid))
    by (unfold len; simpl; rewrite length_app; simpl; lia).
  rewrite for_range_unfold.
  rewrite (for_range_slice (h0 :: mid ++ [hl])
             (fun acc y => madd acc (mscale (RtoC 2) y)) 1 mid 0 h0).
  - simpl rbind. change (h0 :: mid ++ [hl]) with ((h0 :: mid) ++ [hl]).
    rewrite (getitem_last (h0 :: mid) hl). simpl rbind.
    rewrite half_step, minus_i_two_pi. do 3 f_equal.
    unfold msum. rewrite fold_left_app. simpl. f_equal. apply fold_scaled.
  - intros t y Hy. simpl.
    replace (Z.of_nat t + 1) with (Z.of_nat (S t)) by lia.
    apply getitem_lookup. simpl. by apply lookup_app_l_Some.
Qed.

(** C6.  On at least two samples [magnus_expansion_1st_term] returns
    [-i * 2 pi] times [time_step / 2] times the weighted sum of the samples,
    with weight 1 on the first and on the last sample and weight 2 on every
    sample in between; on two samples [H0, H1] this is
    [-i * 2 pi * ((H0 + H1) * time_step / 2)]. *)
Theorem magnus_expansion_1st_term_spec (h : list matrix) (time_step : R) :
  (2 <= length h)%nat ->
  magnus_expansion_1st_term h time_step
  = Ok (mscale (Cmul (Copp Ci) (RtoC (2 * PI)))
          (mscale (RtoC (time_step / 2)) (trapezoid_sum h)))
  /\ (forall H0 H1, h = [H0; H1] ->
        magnus_expansion_1st_term h time_step
        = Ok (mscale (Cmul (Copp Ci) (RtoC (2 * PI)))
                (mdivr (mscale_r (madd H0 H1) (RtoC time_step)) 2))).
Proof.
  intros Hlen.
  assert (Hsplit : exists h0 mid hl, h = h0 :: mid ++ [hl]).
  { destruct h as [|h0 t]; [simpl in Hlen; lia|].
    destruct t as [|x t _] using rev_ind; [simpl in Hlen; lia|].
    by exists h0, t, x. }
  destruct Hsplit as (h0 & mid & hl & ->).
  split; [apply magnus_1st_split|].
  intros H0 H1 E. rewrite magnus_1st_split, E.
  do 2 f_equal. unfold trapezoid_sum.
  pose proof (trapezoid_terms_split H0 H1 []) as Ht. simpl in Ht.
  rewrite Ht. simpl.
  symmetry. apply half_step.
Qed.

Lemma magnus_expansion_1st_term_spec_witness :
  let h := [[[C1]]; [[RtoC 2]]; [[C1]]] in
  magnus_expansion_1st_term h 1
  = Ok (mscale (Cmul (Copp Ci) (RtoC (2 * PI)))
          (mscale (RtoC (1 / 2)) (trapezoid_sum h))).
Proof.
  intros h.
  destruct (magnus_expansion_1st_term_spec h 1) as [H _].
  - simpl. lia.
  - exact H.
Defined.

(** ** Zero operators *)

Lemma Csub_diag (x : C) : Csub x x = C0.
Proof. apply C_eq; simpl; ring. Qed.

Lemma zip_sub_diag (row : list C) :
  zip_with Csub row row = replicate (length row) C0.
Proof. induction row as [|x row IH]; simpl; [done|]. by rewrite Csub_diag, IH. Qed.

Lemma msub_diag (r c : nat) (x : matrix) :
  is_matrix r c x -> msub x x = mzero r c.
Proof.
  intros [Hr Hc]. subst r. unfold msub, mzero.
  induction Hc as [|row x Hrow _ IH]; simpl; [done|].
  by rewrite zip_sub_diag, Hrow, IH.
Qed.

Lemma map_const_replicate {A B : Type} (y : B) (l : list A) :
  map (fun _ => y) l = replicate (length l) y.
Proof. induction l; simpl; [done | by f_equal]. Qed.

Lemma map_replicate {A B : Type} (f : A -> B) (n : nat) (x : A) :
  map f (replicate n x) = replicate n (f x).
Proof. induction n; simpl; [done | by f_equal]. Qed.

Lemma is_matrix_ncols (d : nat) (a : matrix) : is_matrix d d a -> ncols a = d.
Proof.
  intros [Hr Hc]. unfold ncols. destruct Hc as [|row a Hrow _]; simpl in *; lia.
Qed.

Lemma mmul_is_matrix (d : nat) (a b : matrix) :
  is_matrix d d a -> is_matrix d d b -> is_matrix d d (mmul a b).
Proof.
  intros [Hr _] Hb. split.
  - unfold mmul. by rewrite length_map.
  - unfold mmul. apply Forall_forall. intros row Hrow.
    apply list_elem_of_In, in_map_iff in Hrow as (r0 & <- & _).
    by rewrite length_map, length_seq, (is_matrix_ncols d b).
Qed.

Lemma mzero_is_matrix (d : nat) : is_matrix d d (mzero d d).
Proof.
  split; [apply length_replicate|].
  apply Forall_replicate. apply length_replicate.
Qed.

Lemma commutator_diag (d : nat) (a : matrix) :
  is_matrix d d a -> commutator a a = mzero d d.
Proof.
  intros Ha. unfold commutator. apply msub_diag. by apply mmul_is_matrix.
Qed.

Lemma Cmul_0_l (x : C) : Cmul C0 x = C0.
Proof. apply C_eq; simpl; ring. Qed.

Lemma Cmul_0_r (x : C) : Cmul x C0 = C0.
Proof. apply C_eq; simpl; ring. Qed.

Lemma Cadd_0_0 : Cadd C0 C0 = C0.
Proof. apply C_eq; simpl; ring. Qed.

Lemma mscale_r_mzero (r c : nat) (k : C) : mscale_r (mzero r c) k = mzero r c.
Proof. unfold mscale_r, mzero. by rewrite !map_replicate, Cmul_0_l. Qed.

Lemma mscale_mzero (r c : nat) (k : C) : mscale k (mzero r c) = mzero r c.
Proof. unfold mscale, mzero. by rewrite !map_replicate, Cmul_0_r. Qed.

Lemma mscale_r_zero (r c : nat) (a : matrix) :
  is_matrix r c a -> mscale_r a C0 = mzero r c.
Proof.
  intros [Hr Hc]. subst r. unfold mscale_r, mzero.
  induction Hc as [|row a Hrow _ IH]; simpl; [done|].
  rewrite IH. f_equal.
  rewrite (map_ext _ (fun _ => C0)) by (intros; apply Cmul_0_r).
  by rewrite (map_const_replicate C0 row), Hrow.
Qed.

Lemma zip_add_zero (c : nat) :
  zip_with Cadd (replicate c C0) (replicate c C0) = replicate c C0.
Proof. induction c; simpl; [done|]. by rewrite Cadd_0_0, IHc. Qed.

Lemma madd_mzero (r c : nat) : madd (mzero r c) (mzero r c) = mzero r c.
Proof.
  unfold madd, mzero. induction r; simpl; [done|].
  by rewrite zip_add_zero, IHr.
Qed.

Lemma dot_zero_r (row : list C) (c : nat) : dot row (replicate c C0) = C0.
Proof.
  unfold dot. revert c. induction row as [|x row IH]; intros [|c]; simpl; try done.
  rewrite IH, Cmul_0_r. apply Cadd_0_0.
Qed.

Lemma dot_zero_l (v : list C) (c : nat) : dot (replicate c C0) v = C0.
Proof.
  unfold dot. revert c. induction v as [|x v IH]; intros [|c]; simpl; try done.
  rewrite IH, Cmul_0_l. apply Cadd_0_0.
Qed.

Lemma col_mzero (r c j : nat) : col (mzero r c) j = replicate r C0.
Proof.
  unfold col, mzero. rewrite map_replicate. f_equal.
  destruct (decide (j < c)%nat).
  - by apply nth_lookup_Some, lookup_replicate_2.
  - apply nth_overflow. rewrite length_replicate. lia.
Qed.

Lemma mmul_mzero_r (d : nat) (a : matrix) :
  is_matrix d d a -> mmul a (mzero d d) = mzero d d.
Proof.
  intros [Hr _]. unfold mmul.
  rewrite (is_matrix_ncols d (mzero d d) (mzero_is_matrix d)).
  rewrite (map_ext _ (fun _ => replicate d C0)).
  - etransitivity; [apply map_const_replicate|].
    unfold mzero. f_equal. exact Hr.
  - intros row. rewrite (map_ext _ (fun _ => C0)).
    + by rewrite (map_const_replicate C0 (seq 0 d)), length_seq.
    + intros j. rewrite col_mzero. apply dot_zero_r.
Qed.

Lemma mmul_mzero_l (d : nat) (a : matrix) :
  is_matrix d d a -> mmul (mzero d d) a = mzero d d.
Proof.
  intros Ha. unfold mmul. rewrite (is_matrix_ncols d a Ha).
  unfold mzero at 1. rewrite map_replicate. unfold mzero. f_equal.
  rewrite (map_ext _ (fun _ => C0)) by (intros; apply dot_zero_l).
  by rewrite (map_const_replicate C0 (seq 0 d)), length_seq.
Qed.

Lemma commutator_mzero_r (d : nat) (a : matrix) :
  is_matrix d d a -> commutator a (mzero d d) = mzero d d.
Proof.
  intros Ha. unfold commutator.
  rewrite mmul_mzero_r, mmul_mzero_l by done.
  apply msub_diag, mzero_is_matrix.
Qed.

Lemma getitem_replicate {A : Type} (N : nat) (x : A) (t : Z) :
  0 <= t < Z.of_nat N -> getitem (replicate N x) t = Ok x.
Proof.
  intros Ht. rewrite <- (Z2Nat.id t) by lia.
  apply getitem_lookup, lookup_replicate_2. lia.
Qed.

(** ** Higher Magnus terms on a constant Hamiltonian *)

Section ConstantHamiltonian.

Variables (N d : nat) (A : matrix).
Hypothesis HN : (1 <= N)%nat.
Hypothesis HA : is_matrix d d A.

Lemma constant_len : len (replicate N A) = Z.of_nat N.
Proof. unfold len. by rewrite length_replicate. Qed.

Lemma constant_first : getitem (replicate N A) 0 = Ok A.
Proof. apply getitem_replicate. lia. Qed.

Lemma second_order_step (k : C) :
  madd (mzero d d) (mscale_r (commutator A A) k) = mzero d d.
Proof. by rewrite (commutator_diag d A HA), mscale_r_mzero, madd_mzero. Qed.

Lemma third_order_step (k : C) :
  madd (mzero d d)
       (mscale_r (madd (commutator A (commutator A A))
                       (commutator A (commutator A A))) k)
  = mzero d d.
Proof.
  rewrite (commutator_diag d A HA), (commutator_mzero_r d A HA).
  by rewrite madd_mzero, mscale_r_mzero, madd_mzero.
Qed.

Lemma magnus_2nd_constant (time_step : R) :
  magnus_expansion_2nd_term (replicate N A) time_step = Ok (mzero d d).
Proof.
  unfold magnus_expansion_2nd_term.
  rewrite constant_first. simpl rbind.
  rewrite (mscale_r_zero d d A HA), constant_len.
  rewrite for_range_fixed.
  - simpl rbind. by rewrite !mscale_mzero.
  - intros t1 Ht1. apply for_range_fixed. intros t2 Ht2.
    rewrite !getitem_replicate by lia. simpl rbind.
    by rewrite second_order_step.
Qed.

Lemma magnus_3rd_constant (time_step : R) :
  magnus_expansion_3rd_term (replicate N A) time_step = Ok (mzero d d).
Proof.
  unfold magnus_expansion_3rd_term.
  rewrite constant_first. simpl rbind.
  rewrite (mscale_r_zero d d A HA), constant_len.
  rewrite for_range_fixed.
  - simpl rbind. by rewrite mscale_mzero.
  - intros t1 Ht1. apply for_range_fixed. intros t2 Ht2.
    apply for_range_fixed. intros t3 Ht3.
    rewrite !getitem_replicate by lia. simpl rbind.
    by rewrite third_order_step.
Qed.

End ConstantHamiltonian.

(** C7.  When each of the [N >= 1] samples is one and the same square
    operator [A], the second and the third Magnus term are the zero
    operator of the size of [A], for every [time_step]. *)
Theorem magnus_higher_terms_vanish (N d : nat) (A : matrix) (time_step : R) :
  (1 <= N)%nat -> is_matrix d d A ->
  magnus_expansion_2nd_term (replicate N A) time_step = Ok (mzero d d)
  /\ magnus_expansion_3rd_term (replicate N A) time_step = Ok (mzero d d).
Proof.
  intros HN HA. split.
  - by apply magnus_2nd_constant.
  - by apply magnus_3rd_constant.
Qed.

Lemma magnus_higher_terms_vanish_witness :
  let A := [[C0; C1]; [C1; C0]] in
  magnus_expansion_2nd_term [A; A; A] 1 = Ok [[C0; C0]; [C0; C0]]
  /\ magnus_expansion_3rd_term [A; A; A] 1 = Ok [[C0; C0]; [C0; C0]].
Proof.
  intros A. apply (magnus_higher_terms_vanish 3 2 A 1).
  - lia.
  - split; [reflexivity | repeat constructor].
Defined.

(** ** Canonical density matrix *)

Lemma Cdivr_add (a b : C) (x : R) : Cdivr (Cadd a b) x = Cadd (Cdivr a x) (Cdivr b x).
Proof. apply C_eq; simpl; unfold Rdiv; ring. Qed.

Lemma Cdivr_0 (x : R) : Cdivr C0 x = C0.
Proof. apply C_eq; simpl; unfold Rdiv; ring. Qed.

Lemma csum_divr (l : list C) (x : R) :
  csum (map (fun y => Cdivr y x) l) = Cdivr (csum l) x.
Proof.
  induction l as [|a l IH]; simpl.
  - symmetry. apply Cdivr_0.
  - by rewrite IH, Cdivr_add.
Qed.

Lemma nth_map_default {A B : Type} (f : A -> B) (l : list A) (i : nat) (a : A) (b : B) :
  f a = b -> nth i (map f l) b = f (nth i l a).
Proof.
  intros Hf. revert i. induction l as [|x l IH]; intros [|i]; simpl; auto.
Qed.

Lemma trace_mdivr (q : matrix) (x : R) : trace (mdivr q x) = Cdivr (trace q) x.
Proof.
  unfold trace, mdivr. rewrite length_map, <- csum_divr, map_map.
  f_equal. apply map_ext. intros i.
  rewrite (nth_map_default _ q i [] []) by reflexivity.
  apply (nth_map_default (fun y => Cdivr y x)), Cdivr_0.
Qed.

Lemma Cmod_0 : Cmod (Csub C1 C1) = 0%R.
Proof.
  unfold Cmod; simpl.
  replace ((1 - 1) * (1 - 1) + (0 - 0) * (0 - 0))%R with 0%R by ring.
  apply sqrt_0.
Qed.

Lemma isclose_refl_1 (rtol : R) : (0 <= rtol)%R -> isclose C1 C1 rtol = true.
Proof.
  intros Hr. unfold isclose. rewrite Cmod_0.
  destruct (Rle_dec 0 (1e-8 + rtol * Cmod C1)) as [_|Hn]; [done|].
  exfalso. apply Hn.
  assert (0 <= Cmod C1)%R by apply sqrt_pos.
  assert (0 <= rtol * Cmod C1)%R by (by apply Rmult_le_pos).
  lra.
Qed.

Lemma unit_unit_trace (norm : matrix -> R) (q : matrix) :
  trace q = RtoC (norm q) -> (0 < norm q)%R ->
  unit_trace (unit norm q) = true.
Proof.
  intros Htr Hpos. unfold unit_trace, unit.
  rewrite trace_mdivr, Htr.
  replace (Cdivr (RtoC (norm q)) (norm q)) with C1.
  - apply isclose_refl_1. lra.
  - apply C_eq; simpl; field; lra.
Qed.


(** ** What does hold of the density matrix and of the Hadamard array *)

Lemma density_matrix_single_qubit_trace fuel (a b : C) rho :
  density_matrix (S fuel) {| _matrix := [a; b]; _qs := {| _n := 1 |} |} = Ok rho ->
  float_symmetric rho
  /\ float_trace rho = (Re a * Re a + Im a * Im a + (Re b * Re b + Im b * Im b))%R.
Proof.
  rewrite density_matrix_single_qubit. intros E. inversion E; subst rho; clear E.
  split.
  - intros [|[|[|i]]] [|[|[|j]]]; simpl; try reflexivity; try ring;
      destruct i; try destruct j; reflexivity.
  - unfold float_trace. simpl. ring.
Qed.

(** X19.  A state built from angles has a symmetric density matrix of
    trace 1. *)
Lemma density_matrix_angles fuel (alpha beta : R) :
  exists ket rho,
    make_state the_qubit_space (Some alpha) (Some beta) None = Ok ket
    /\ density_matrix (S fuel) ket = Ok rho
    /\ float_symmetric rho /\ float_trace rho = 1%R.
Proof.
  do 2 eexists. split; [apply make_state_angles|].
  split; [apply density_matrix_single_qubit|].
  destruct (density_matrix_single_qubit_trace fuel _ _ _
              (density_matrix_single_qubit fuel
                 (mkC (cos (beta / 2)) 0)
                 (mkC (sin (beta / 2) * cos alpha) (sin (beta / 2) * sin alpha))))
    as [Hsym Htr].
  split; [exact Hsym|]. rewrite Htr. simpl.
  pose proof (sin2_cos2 alpha) as Ha. pose proof (sin2_cos2 (beta / 2)) as Hb.
  unfold Rsqr in Ha, Hb.
  set (c := cos (beta / 2)) in *. set (s := sin (beta / 2)) in *.
  set (ca := cos alpha) in *. set (sa := sin alpha) in *.
  replace (c * c + 0 * 0 + (s * ca * (s * ca) + s * sa * (s * sa)))%R
    with (c * c + s * s * (sa * sa + ca * ca))%R by ring.
  rewrite Ha. lra.
Qed.

Lemma make_state_coeffs (c0 c1 : C) :
  make_state the_qubit_space None None (Some [c0; c1])
  = Ok {| _matrix := [Cdivr c0 (vnorm [c0; c1]); Cdivr c1 (vnorm [c0; c1])];
          _qs := {| _n := 1 |} |}.
Proof.
  unfold make_state. simpl. unfold QubitState_init. simpl. do 2 f_equal.
  f_equal; [|f_equal]; apply C_eq; simpl; ring.
Qed.

(** X20.  So has a state built from coefficients that are not both
    zero. *)
Lemma density_matrix_coeffs fuel (c0 c1 : C) :
  (c0 <> C0 \/ c1 <> C0) ->
  exists ket rho,
    make_state the_qubit_space None None (Some [c0; c1]) = Ok ket
    /\ density_matrix (S fuel) ket = Ok rho
    /\ float_symmetric rho /\ float_trace rho = 1%R.
Proof.
  intros Hnz. do 2 eexists. split; [apply make_state_coeffs|].
  split; [apply density_matrix_single_qubit|].
  destruct (density_matrix_single_qubit_trace fuel _ _ _
              (density_matrix_single_qubit fuel
                 (Cdivr c0 (vnorm [c0; c1])) (Cdivr c1 (vnorm [c0; c1]))))
    as [Hsym Htr].
  split; [exact Hsym|]. rewrite Htr.
  set (q := (Re c0 * Re c0 + Im c0 * Im c0 + (Re c1 * Re c1 + Im c1 * Im c1))%R).
  assert (Hq : (0 < q)%R).
  { unfold q. destruct c0 as [x0 y0], c1 as [x1 y1]. simpl.
    assert (x0 <> 0 \/ y0 <> 0 \/ x1 <> 0 \/ y1 <> 0)%R as Hc.
    { destruct (Req_dec x0 0), (Req_dec y0 0), (Req_dec x1 0), (Req_dec y1 0);
        auto. subst. exfalso. destruct Hnz as [H|H]; apply H; reflexivity. }
    destruct Hc as [H|[H|[H|H]]]; nra. }
  assert (Hn : (vnorm [c0; c1] * vnorm [c0; c1] = q)%R).
  { unfold vnorm. simpl.
    replace (Re c0 * Re c0 + Im c0 * Im c0 + (Re c1 * Re c1 + Im c1 * Im c1 + 0))%R
      with q by (unfold q; ring).
    apply sqrt_sqrt. lra. }
  assert (Hne : (vnorm [c0; c1] <> 0)%R) by (intros E; rewrite E in Hn; lra).
  simpl. set (n := vnorm [c0; c1]) in *.
  replace (Re c0 / n * (Re c0 / n) + Im c0 / n * (Im c0 / n)
           + (Re c1 / n * (Re c1 / n) + Im c1 / n * (Im c1 / n)))%R
    with (q / (n * n))%R by (unfold q; field; exact Hne).
  rewrite Hn. field. lra.
Qed.

(** As arrays, the Hadamard matrix applied twice to [|0>] gives [|0>]. *)
Lemma hadamard_twice :
  mvmul HADAMARD_array (mvmul HADAMARD_array [C1; C0]) = [C1; C0].
Proof.
  pose proof sqrt2_inv_sq as Hs.
  unfold HADAMARD_array, mvmul, mscale, dot, csum. simpl.
  set (s := (1 / sqrt 2)%R) in *.
  f_equal; [|f_equal]; apply C_eq; simpl; nra.
Qed.

(* ================================================================= *)
(** * Further properties *)

(** ** adjoint *)

Lemma Cconj_involutive (x : C) : Cconj (Cconj x) = x.
Proof. destruct x. apply C_eq; simpl; ring. Qed.

Lemma Cconj_0 : Cconj C0 = C0.
Proof. apply C_eq; simpl; ring. Qed.

Lemma map_nth_seq {A : Type} (l : list A) (d : A) :
  map (fun i => nth i l d) (seq 0 (length l)) = l.
Proof.
  apply (nth_ext _ _ d d).
  - by rewrite length_map, length_seq.
  - intros i Hi. rewrite length_map, length_seq in Hi.
    rewrite (nth_indep _ d (nth 0 l d)) by (by rewrite length_map, length_seq).
    rewrite (map_nth (fun i => nth i l d) (seq 0 (length l)) 0%nat i).
    by rewrite seq_nth.
Qed.

Lemma is_matrix_row (r c : nat) (a : matrix) (i : nat) :
  is_matrix r c a -> (i < r)%nat -> length (nth i a []) = c.
Proof.
  intros [Hr Hc] Hi. subst r.
  destruct (nth_lookup_or_length a i []) as [Hl|Hl]; [|lia].
  by apply (Forall_lookup_1 _ _ _ _ Hc Hl).
Qed.

Lemma adjoint_is_matrix (r c : nat) (a : matrix) :
  (1 <= r)%nat -> is_matrix r c a -> is_matrix c r (adjoint a).
Proof.
  intros Hpos Ha. pose proof Ha as [Hr Hc].
  assert (Hn : ncols a = c).
  { unfold ncols. destruct Hc as [|row a Hrow _]; simpl in *; [lia | done]. }
  split.
  - by rewrite adjoint_length.
  - unfold adjoint, transpose. apply Forall_forall. intros row Hrow.
    apply list_elem_of_In, in_map_iff in Hrow as (r0 & <- & Hr0).
    apply in_map_iff in Hr0 as (j & <- & _).
    unfold col. by rewrite !length_map.
Qed.

Lemma adjoint_entry (r c : nat) (a : matrix) (i j : nat) :
  (1 <= r)%nat -> is_matrix r c a -> (j < c)%nat ->
  nth i (nth j (adjoint a) []) C0 = Cconj (nth j (nth i a []) C0).
Proof.
  intros Hpos Ha Hj. pose proof Ha as [Hr Hc].
  assert (Hn : ncols a = c).
  { unfold ncols. destruct Hc as [|row a Hrow _]; simpl in *; [lia | done]. }
  unfold adjoint, transpose. rewrite Hn.
  rewrite (nth_lookup_Some _ j [] (map Cconj (col a j)))
    by (by rewrite !list_lookup_fmap, lookup_seq_lt).
  rewrite (nth_map_default Cconj _ i C0 C0) by apply Cconj_0.
  f_equal. unfold col.
  apply (nth_map_default (fun row => nth j row C0) a i [] C0). by destruct j.
Qed.

(** X1.  Taking the adjoint twice gives the array back, for every array
    with at least one row and one column; the adjoint of an [r x c] array
    is [c x r]. *)
Theorem adjoint_involutive (r c : nat) (a : matrix) :
  (1 <= r)%nat -> (1 <= c)%nat -> is_matrix r c a ->
  is_matrix c r (adjoint a) /\ adjoint (adjoint a) = a.
Proof.
  intros Hr Hc Ha.
  pose proof (adjoint_is_matrix r c a Hr Ha) as Hadj.
  split; [exact Hadj|].
  pose proof (adjoint_is_matrix c r (adjoint a) Hc Hadj) as Hadj2.
  destruct Ha as [Hlen Hrows]. destruct Hadj2 as [Hlen2 Hrows2].
  apply (nth_ext _ _ [] []); [lia|].
  intros i Hi. rewrite Hlen2 in Hi.
  apply (nth_ext _ _ C0 C0).
  - rewrite (is_matrix_row r c (adjoint (adjoint a)) i) by (done || (by split)).
    by rewrite (is_matrix_row r c a i) by (done || (by split)).
  - intros j Hj.
    rewrite (is_matrix_row r c (adjoint (adjoint a)) i) in Hj
      by (done || (by split)).
    rewrite (adjoint_entry c r (adjoint a) j i) by done.
    rewrite (adjoint_entry r c a i j) by (done || (by split)).
    apply Cconj_involutive.
Qed.

Lemma adjoint_involutive_witness :
  adjoint (adjoint [[C1; Ci; C0]; [C0; C1; Ci]]) = [[C1; Ci; C0]; [C0; C1; Ci]].
Proof.
  apply (adjoint_involutive 2 3); [lia | lia |].
  split; [reflexivity | repeat constructor].
Defined.

(** ** normalize *)

Lemma vnorm_norm2 (a : vector) : vnorm a = sqrt (norm2 a).
Proof. reflexivity. Qed.

Lemma norm2_nonneg (a : vector) : (0 <= norm2 a)%R.
Proof.
  unfold norm2. induction a as [|x a IH]; simpl; [lra|].
  pose proof (Rle_0_sqr (Re x)). pose proof (Rle_0_sqr (Im x)).
  unfold Rsqr in *. lra.
Qed.

Lemma norm2_pos (a : vector) : Exists (fun x => x <> C0) a -> (0 < norm2 a)%R.
Proof.
  induction 1 as [x a Hx|x a _ IH]; unfold norm2; simpl; fold (norm2 a).
  - pose proof (norm2_nonneg a).
    destruct x as [u v]. simpl.
    assert (u <> 0 \/ v <> 0)%R as [H0|H0].
    { destruct (Req_dec u 0), (Req_dec v 0); auto.
      subst. exfalso. by apply Hx. }
    + pose proof (Rle_0_sqr v). unfold Rsqr in *. nra.
    + pose proof (Rle_0_sqr u). unfold Rsqr in *. nra.
  - pose proof (Rle_0_sqr (Re x)). pose proof (Rle_0_sqr (Im x)).
    unfold Rsqr in *. lra.
Qed.

Lemma norm2_divr (a : vector) (n : R) :
  (n <> 0)%R -> norm2 (map (fun x => Cdivr x n) a) = (norm2 a / (n * n))%R.
Proof.
  intros Hn. unfold norm2. induction a as [|x a IH]; simpl.
  - field. exact Hn.
  - rewrite IH. field. exact Hn.
Qed.

Lemma normalize_norm_one (a : vector) :
  Exists (fun x => x <> C0) a -> vnorm (normalize a) = 1%R.
Proof.
  intros Hnz. unfold normalize.
  pose proof (norm2_pos a Hnz) as Hpos.
  assert (Hsq : (vnorm a * vnorm a = norm2 a)%R)
    by (rewrite vnorm_norm2; apply sqrt_sqrt; lra).
  assert (Hne : (vnorm a <> 0)%R) by (intros E; rewrite E in Hsq; lra).
  rewrite vnorm_norm2, norm2_divr, Hsq by exact Hne.
  replace (norm2 a / norm2 a)%R with 1%R by (field; lra).
  apply sqrt_1.
Qed.

(** X2.  [normalize] keeps the length and, on every array with a nonzero
    entry, returns an array of Euclidean norm 1. *)
Theorem normalize_unit_norm (a : vector) :
  Exists (fun x => x <> C0) a ->
  length (normalize a) = length a /\ vnorm (normalize a) = 1%R.
Proof.
  intros Hnz. split; [|by apply normalize_norm_one].
  unfold normalize. by rewrite length_map.
Qed.

Lemma normalize_unit_norm_witness :
  vnorm (normalize [RtoC 3; RtoC 4]) = 1%R.
Proof.
  apply (normalize_unit_norm [RtoC 3; RtoC 4]).
  apply Exists_cons_hd. intros E. apply (f_equal Re) in E. simpl in E. lra.
Defined.

(** ** NGate construction, as the code decides it *)

(** X3.  On a space with [n >= 1] the constructor of [NGate] raises the
    representation error exactly when the shape of the array is not
    [(2^n, 2^n)]; every array of that shape yields a gate that holds the
    array as given, together with the space and its [n]. *)
Theorem NGate_init_raises_iff_shape (x : matrix) (qs : CompositeQubitSpace) :
  1 <= _n qs ->
  (NGate_init x qs = Raise MatrixRepresentationError
   <-> shape x <> (2 ^ _n qs, 2 ^ _n qs))
  /\ (shape x = (2 ^ _n qs, 2 ^ _n qs) ->
      NGate_init x qs = Ok {| gate_qs := qs; gate_n := _n qs; gate_matrix := x |}).
Proof.
  intros Hn. split; [|apply NGate_init_shape_only; lia].
  split.
  - intros Hraise Hshape.
    rewrite NGate_init_shape_only in Hraise by (lia || done). discriminate.
  - intros Hshape. unfold NGate_init.
    destruct (shape_eqb (shape x) (2 ^ _n qs, 2 ^ _n qs)) eqn:E; [|done].
    exfalso. apply Hshape. destruct (shape x) as [u v].
    unfold shape_eqb in E. cbn [fst snd] in E.
    apply andb_true_iff in E as [E1 E2].
    apply Z.eqb_eq in E1, E2. by rewrite E1, E2.
Qed.

Lemma NGate_init_raises_iff_shape_witness :
  NGate_init [[C1; C0; C0]; [C0; C1; C0]] {| _n := 1 |}
  = Raise MatrixRepresentationError.
Proof.
  destruct (NGate_init_raises_iff_shape [[C1; C0; C0]; [C0; C1; C0]] {| _n := 1 |})
    as [[_ H] _]; [simpl; lia|].
  apply H. discriminate.
Defined.

(** ** make_state *)

Lemma make_state_missing_angle (alpha beta : option R) (coeffs : option vector) :
  alpha = None \/ beta = None ->
  make_state the_qubit_space alpha beta coeffs
  = make_state the_qubit_space None None coeffs.
Proof. destruct alpha, beta; intros [H|H]; try discriminate; reflexivity. Qed.

Lemma make_state_coeffs_bad (c : vector) :
  length c <> 2%nat ->
  make_state the_qubit_space None None (Some c) = Raise MatrixRepresentationError.
Proof.
  intros Hl. unfold make_state.
  replace (len c =? 2) with false; [reflexivity|].
  symmetry. apply Z.eqb_neq. unfold len. lia.
Qed.

Lemma make_state_coeffs_ok (c : vector) :
  length c = 2%nat ->
  exists ket, make_state the_qubit_space None None (Some c) = Ok ket.
Proof.
  destruct c as [|c0 [|c1 [|c2 c]]]; intros Hl; simpl in Hl; try lia.
  eexists. apply make_state_coeffs.
Qed.

(** X4.  [make_state] on the single-qubit space: when both angles are
    given it returns a state and does not look at [coeffs]; when an angle
    is missing and [coeffs] has two entries it returns a state; in every
    remaining case, and in no other, it raises the representation error.
    No other exception is raised. *)
Theorem make_state_outcomes (alpha beta : option R) (coeffs : option vector) :
  (make_state the_qubit_space alpha beta coeffs = Raise MatrixRepresentationError
   <-> (alpha = None \/ beta = None)
       /\ (coeffs = None \/ exists c, coeffs = Some c /\ length c <> 2%nat))
  /\ (make_state the_qubit_space alpha beta coeffs = Raise MatrixRepresentationError
      \/ exists ket, make_state the_qubit_space alpha beta coeffs = Ok ket)
  /\ (forall a b, alpha = Some a -> beta = Some b ->
      make_state the_qubit_space alpha beta coeffs
      = make_state the_qubit_space alpha beta None).
Proof.
  destruct (decide (alpha = None \/ beta = None)) as [Hmiss|Hboth].
  - rewrite (make_state_missing_angle alpha beta coeffs Hmiss).
    split; [|split].
    + destruct coeffs as [c|].
      * destruct (decide (length c = 2%nat)) as [Hl|Hl].
        -- destruct (make_state_coeffs_ok c Hl) as [ket ->].
           split; [discriminate|].
           intros [_ [H|(c' & H & H')]]; [discriminate | congruence].
        -- rewrite make_state_coeffs_bad by done.
           split; [|done]. intros _. split; [done|]. right. eauto.
      * split; [|done]. intros _. split; [done | by left].
    + destruct coeffs as [c|]; [|by left].
      destruct (decide (length c = 2%nat)) as [Hl|Hl].
      * right. by apply make_state_coeffs_ok.
      * left. by apply make_state_coeffs_bad.
    + intros a b -> ->. destruct Hmiss; discriminate.
  - destruct alpha as [a|], beta as [b|];
      try (exfalso; apply Hboth; auto; fail).
    rewrite make_state_angles. split; [|split].
    + split; [discriminate|]. intros [[H|H] _]; discriminate.
    + right. eauto.
    + intros. by rewrite make_state_angles.
Qed.

Lemma make_state_outcomes_witness :
  make_state the_qubit_space (Some 0%R) None (Some [C1; C0; C0])
  = Raise MatrixRepresentationError.
Proof.
  destruct (make_state_outcomes (Some 0%R) None (Some [C1; C0; C0])) as [[_ H] _].
  apply H. split; [by right|].
  right. exists [C1; C0; C0]. split; [reflexivity | simpl; lia].
Defined.

(** X5.  A state built by [make_state] has Euclidean norm 1: for all
    angles, and for every pair of coefficients that are not both zero, in
    which case the state vector is the normalised pair. *)
Theorem make_state_normalized :
  (forall (alpha beta : R) (coeffs : option vector),
     exists ket,
       make_state the_qubit_space (Some alpha) (Some beta) coeffs = Ok ket
       /\ vnorm (_matrix ket) = 1%R)
  /\ (forall c0 c1 : C,
        c0 <> C0 \/ c1 <> C0 ->
        exists ket,
          make_state the_qubit_space None None (Some [c0; c1]) = Ok ket
          /\ _matrix ket = normalize [c0; c1]
          /\ vnorm (_matrix ket) = 1%R).
Proof.
  split.
  - intros alpha beta coeffs. eexists. split; [apply make_state_angles|].
    cbn [_matrix]. rewrite vnorm_norm2. unfold norm2. simpl.
    pose proof (sin2_cos2 alpha) as Ha. pose proof (sin2_cos2 (beta / 2)) as Hb.
    unfold Rsqr in Ha, Hb.
    set (c := cos (beta / 2)) in *. set (s := sin (beta / 2)) in *.
    set (ca := cos alpha) in *. set (sa := sin alpha) in *.
    replace (c * c + 0 * 0 + (s * ca * (s * ca) + s * sa * (s * sa) + 0))%R
      with (c * c + s * s * (sa * sa + ca * ca))%R by ring.
    rewrite Ha. replace (c * c + s * s * 1)%R with 1%R by lra.
    apply sqrt_1.
  - intros c0 c1 Hnz. eexists. split; [apply make_state_coeffs|].
    cbn [_matrix]. split; [reflexivity|].
    apply (normalize_norm_one [c0; c1]).
    destruct Hnz as [H|H]; [by apply Exists_cons_hd|].
    apply Exists_cons_tl. by apply Exists_cons_hd.
Qed.

Lemma make_state_normalized_witness :
  exists ket,
    make_state the_qubit_space None None (Some [RtoC 3; RtoC 4]) = Ok ket
    /\ vnorm (_matrix ket) = 1%R.
Proof.
  destruct make_state_normalized as [_ H].
  destruct (H (RtoC 3) (RtoC 4)) as (ket & Hk & _ & Hn).
  - left. intros E. apply (f_equal Re) in E. simpl in E. lra.
  - exists ket. split; [exact Hk | exact Hn].
Defined.

(** ** The density matrix in any dimension *)

Lemma Cmul_comm (a b : C) : Cmul a b = Cmul b a.
Proof. apply C_eq; simpl; ring. Qed.

Lemma dot_comm (u : vector) : forall v, dot u v = dot v u.
Proof.
  unfold dot. induction u as [|x u IH]; intros [|y v]; simpl; try done.
  by rewrite IH, Cmul_comm.
Qed.

Lemma Cconj_real (x : R) : Cconj (RtoC x) = RtoC x.
Proof. apply C_eq; simpl; ring. Qed.

Lemma conj_real_vector (e : list R) : map Cconj (map RtoC e) = map RtoC e.
Proof. rewrite map_map. apply map_ext. apply Cconj_real. Qed.

Lemma dot_kron_before (i : nat) (u : vector) : forall s,
  (i < s)%nat ->
  dot u (map RtoC (map (fun j => if Nat.eqb j i then 1%R else 0%R)
                       (seq s (length u)))) = C0.
Proof.
  unfold dot. induction u as [|x u IH]; intros s Hs; simpl; [done|].
  rewrite IH by lia.
  destruct (Nat.eqb_spec s i) as [->|_]; [lia|].
  apply C_eq; simpl; ring.
Qed.

Lemma dot_kron_at (i : nat) (u : vector) : forall s,
  (s <= i < s + length u)%nat ->
  dot u (map RtoC (map (fun j => if Nat.eqb j i then 1%R else 0%R)
                       (seq s (length u)))) = nth (i - s) u C0.
Proof.
  induction u as [|x u IH]; intros s Hs; simpl in Hs; [lia|].
  simpl length. simpl seq. simpl map.
  destruct (Nat.eqb_spec s i) as [->|Hne].
  - pose proof (dot_kron_before i u (S i) ltac:(lia)) as Hrest.
    unfold dot in *. simpl. rewrite Hrest, Nat.sub_diag.
    destruct x. apply C_eq; simpl; ring.
  - pose proof (IH (S s) ltac:(lia)) as Hrest.
    unfold dot in *. simpl. rewrite Hrest.
    replace (i - s)%nat with (S (i - S s)) by lia. simpl.
    destruct (nth (i - S s) u C0). apply C_eq; simpl; ring.
Qed.

Lemma dot_unit_r (d i : nat) (u : vector) :
  length u = d -> (i < d)%nat -> dot u (map RtoC (unit_vector d i)) = nth i u C0.
Proof.
  intros Hu Hi. unfold unit_vector. subst d.
  rewrite dot_kron_at by lia. by rewrite Nat.sub_0_r.
Qed.

Lemma projector_entry_standard (d i j : nat) (psi : vector) :
  length psi = d -> (i < d)%nat -> (j < d)%nat ->
  projector_entry (standard_basis d) psi i j
  = Cmul (nth i psi C0) (Cconj (nth j psi C0)).
Proof.
  intros Hpsi Hi Hj. unfold projector_entry.
  rewrite !(nth_lookup_Some _ _ [] (unit_vector d _))
    by (by apply standard_basis_lookup).
  rewrite conj_real_vector, dot_comm, dot_unit_r by done.
  rewrite dot_unit_r by (by rewrite ?length_map).
  f_equal. apply (nth_map_default Cconj psi j C0 C0), Cconj_0.
Qed.

Lemma density_matrix_value (qs : CompositeQubitSpace) (psi : vector) (fuel : nat) :
  1 <= _n qs -> (Z.to_nat (_n qs) <= fuel)%nat -> len psi = 2 ^ _n qs ->
  density_matrix fuel {| _matrix := psi; _qs := qs |}
  = Ok (map (fun i => map (fun j => Re (Cmul (nth i psi C0) (Cconj (nth j psi C0))))
                          (seq 0 (length psi)))
            (seq 0 (length psi))).
Proof.
  intros Hn Hf Hlen. unfold density_matrix. cbn [_qs _matrix].
  rewrite onb_matrices_standard by done. simpl rbind.
  set (d := Z.to_nat (2 ^ _n qs)).
  assert (Hd : length psi = d) by (unfold d, len in *; lia).
  rewrite standard_basis_length, Hd. f_equal.
  apply map_ext_in. intros i Hi. apply in_seq in Hi.
  apply map_ext_in. intros j Hj. apply in_seq in Hj.
  rewrite <- (projector_entry_standard d i j psi) by (done || lia).
  reflexivity.
Qed.

Lemma nth_map_seq {A : Type} (f : nat -> A) (d i : nat) (a : A) :
  (i < d)%nat -> nth i (map f (seq 0 d)) a = f i.
Proof.
  intros Hi. apply nth_lookup_Some.
  by rewrite list_lookup_fmap, lookup_seq_lt.
Qed.

Lemma sum_over_indices (g : C -> R) (psi : vector) :
  map (fun i => g (nth i psi C0)) (seq 0 (length psi)) = map g psi.
Proof.
  transitivity (map g (map (fun i => nth i psi C0) (seq 0 (length psi)))).
  - by rewrite map_map.
  - by rewrite map_nth_seq.
Qed.

(** X6.  For a state vector [psi] of length [2^n] on a space with
    [n >= 1], [density_matrix] returns a [2^n x 2^n] real array whose entry
    [(i, j)] is the real part of [<e_i|psi> * <psi|e_j> = psi_i * conj psi_j],
    the basis being the one [onb_matrices] returns. *)
Theorem density_matrix_entries
    (qs : CompositeQubitSpace) (psi : vector) (fuel : nat) :
  1 <= _n qs -> (Z.to_nat (_n qs) <= fuel)%nat -> len psi = 2 ^ _n qs ->
  exists onb rho,
    onb_matrices fuel qs = Ok onb
    /\ density_matrix fuel {| _matrix := psi; _qs := qs |} = Ok rho
    /\ length rho = length psi
    /\ forall i j, (i < length psi)%nat -> (j < length psi)%nat ->
         length (nth i rho []) = length psi
         /\ projector_entry onb psi i j = Cmul (nth i psi C0) (Cconj (nth j psi C0))
         /\ nth j (nth i rho []) 0%R = Re (projector_entry onb psi i j).
Proof.
  intros Hn Hf Hlen.
  assert (Hd : length psi = Z.to_nat (2 ^ _n qs)) by (unfold len in *; lia).
  do 2 eexists. split; [by apply onb_matrices_standard|].
  split; [by apply density_matrix_value|].
  split; [by rewrite length_map, length_seq|].
  intros i j Hi Hj. rewrite (nth_map_seq _ _ i []) by done.
  rewrite length_map, length_seq, (nth_map_seq _ _ j 0%R) by done.
  rewrite <- Hd. by rewrite projector_entry_standard.
Qed.

Lemma density_matrix_entries_witness :
  exists rho,
    density_matrix 2 {| _matrix := [C1; Ci; C0; C0]; _qs := {| _n := 2 |} |} = Ok rho
    /\ length rho = 4%nat.
Proof.
  destruct (density_matrix_entries {| _n := 2 |} [C1; Ci; C0; C0] 2)
    as (onb & rho & _ & Hrho & Hlen & _).
  - simpl. lia.
  - simpl. lia.
  - reflexivity.
  - exists rho. split; [exact Hrho | exact Hlen].
Defined.

Lemma density_rows_overflow (f : nat -> nat -> R) (d i j : nat) :
  (d <= i)%nat ->
  nth j (nth i (map (fun i => map (f i) (seq 0 d)) (seq 0 d)) []) 0%R = 0%R.
Proof.
  intros Hi. rewrite (nth_overflow _ []) by (by rewrite length_map, length_seq).
  by destruct j.
Qed.

Lemma density_cols_overflow (f : nat -> nat -> R) (d i j : nat) :
  (d <= j)%nat ->
  nth j (nth i (map (fun i => map (f i) (seq 0 d)) (seq 0 d)) []) 0%R = 0%R.
Proof.
  intros Hj. destruct (decide (i < d)%nat) as [Hi|Hi].
  - rewrite (nth_map_seq _ _ i []) by done.
    apply nth_overflow. by rewrite length_map, length_seq.
  - apply density_rows_overflow. lia.
Qed.

Lemma sqrt_eq_1 (x : R) : (0 <= x)%R -> sqrt x = 1%R -> x = 1%R.
Proof.
  intros Hx Hs. rewrite <- (sqrt_sqrt x Hx), Hs. ring.
Qed.

(** X7.  That array is symmetric, its diagonal entries are [|psi_i|^2]
    and so not negative, and its trace is the squared norm of [psi]: the
    trace is 1 whenever [psi] has norm 1. *)
Theorem density_matrix_symmetric_trace
    (qs : CompositeQubitSpace) (psi : vector) (fuel : nat) :
  1 <= _n qs -> (Z.to_nat (_n qs) <= fuel)%nat -> len psi = 2 ^ _n qs ->
  exists rho,
    density_matrix fuel {| _matrix := psi; _qs := qs |} = Ok rho
    /\ float_symmetric rho
    /\ (forall i, (0 <= nth i (nth i rho []) 0)%R)
    /\ float_trace rho = norm2 psi
    /\ (vnorm psi = 1%R -> float_trace rho = 1%R).
Proof.
  intros Hn Hf Hlen.
  set (d := length psi).
  set (f := fun i j => Re (Cmul (nth i psi C0) (Cconj (nth j psi C0)))).
  exists (map (fun i => map (f i) (seq 0 d)) (seq 0 d)).
  split; [by apply density_matrix_value|].
  assert (Htrace : float_trace (map (fun i => map (f i) (seq 0 d)) (seq 0 d))
                   = norm2 psi).
  { unfold float_trace. rewrite length_map, length_seq.
    set (g := fun x : C => (Re x * Re x + Im x * Im x)%R).
    transitivity (fold_right Rplus 0%R (map (fun i => g (nth i psi C0)) (seq 0 d))).
    - f_equal. apply map_ext_in. intros i Hi. apply in_seq in Hi.
      rewrite (nth_map_seq _ _ i []), (nth_map_seq _ _ i 0%R) by lia.
      unfold f, g. simpl. ring.
    - unfold norm2. f_equal. apply (sum_over_indices g psi). }
  split; [|split; [|split]].
  - intros i j.
    destruct (decide (i < d)%nat) as [Hi|Hi];
      [|rewrite (density_rows_overflow f d i j), (density_cols_overflow f d j i)
          by lia; done].
    destruct (decide (j < d)%nat) as [Hj|Hj];
      [|rewrite (density_cols_overflow f d i j), (density_rows_overflow f d j i)
          by lia; done].
    rewrite (nth_map_seq _ _ i []), (nth_map_seq _ _ j 0%R) by done.
    rewrite (nth_map_seq _ _ j []), (nth_map_seq _ _ i 0%R) by done.
    unfold f. simpl. ring.
  - intros i. destruct (decide (i < d)%nat) as [Hi|Hi];
      [|rewrite density_rows_overflow by lia; lra].
    rewrite (nth_map_seq _ _ i []), (nth_map_seq _ _ i 0%R) by done.
    unfold f. simpl.
    pose proof (Rle_0_sqr (Re (nth i psi C0))).
    pose proof (Rle_0_sqr (Im (nth i psi C0))).
    unfold Rsqr in *. lra.
  - exact Htrace.
  - intros Hnorm. rewrite Htrace.
    apply sqrt_eq_1; [apply norm2_nonneg | exact Hnorm].
Qed.

Lemma density_matrix_symmetric_trace_witness :
  exists rho,
    density_matrix 1 {| _matrix := [RtoC 3; RtoC 4]; _qs := {| _n := 1 |} |} = Ok rho
    /\ float_trace rho = norm2 [RtoC 3; RtoC 4].
Proof.
  destruct (density_matrix_symmetric_trace {| _n := 1 |} [RtoC 3; RtoC 4] 1)
    as (rho & Hrho & _ & _ & Htr & _).
  - simpl. lia.
  - simpl. lia.
  - reflexivity.
  - exists rho. split; [exact Hrho | exact Htr].
Defined.

(** X8.  When every amplitude of [psi] is real, the array is the
    projector itself: each entry equals [<e_i|psi> * <psi|e_j>]. *)
Theorem density_matrix_real_amplitudes
    (qs : CompositeQubitSpace) (psi : vector) (fuel : nat) :
  1 <= _n qs -> (Z.to_nat (_n qs) <= fuel)%nat -> len psi = 2 ^ _n qs ->
  Forall (fun x => Im x = 0%R) psi ->
  exists onb rho,
    onb_matrices fuel qs = Ok onb
    /\ density_matrix fuel {| _matrix := psi; _qs := qs |} = Ok rho
    /\ forall i j, (i < length psi)%nat -> (j < length psi)%nat ->
         RtoC (nth j (nth i rho []) 0%R) = projector_entry onb psi i j.
Proof.
  intros Hn Hf Hlen Hreal.
  assert (Hd : length psi = Z.to_nat (2 ^ _n qs)) by (unfold len in *; lia).
  do 2 eexists. split; [by apply onb_matrices_standard|].
  split; [by apply density_matrix_value|].
  intros i j Hi Hj.
  rewrite (nth_map_seq _ _ i []), (nth_map_seq _ _ j 0%R) by done.
  rewrite <- Hd, projector_entry_standard by done.
  assert (Him : forall k, (k < length psi)%nat -> Im (nth k psi C0) = 0%R).
  { intros k Hk. destruct (nth_lookup_or_length psi k C0) as [Hl|Hl]; [|lia].
    by apply (Forall_lookup_1 _ _ _ _ Hreal Hl). }
  apply C_eq; simpl; [reflexivity|].
  rewrite (Him i Hi), (Him j Hj). ring.
Qed.

Lemma density_matrix_real_amplitudes_witness :
  exists onb rho,
    onb_matrices 1 {| _n := 1 |} = Ok onb
    /\ density_matrix 1 {| _matrix := [RtoC 3; RtoC 4]; _qs := {| _n := 1 |} |} = Ok rho
    /\ RtoC (nth 1 (nth 0 rho []) 0%R) = projector_entry onb [RtoC 3; RtoC 4] 0 1.
Proof.
  destruct (density_matrix_real_amplitudes {| _n := 1 |} [RtoC 3; RtoC 4] 1)
    as (onb & rho & Honb & Hrho & Hent).
  - simpl. lia.
  - simpl. lia.
  - reflexivity.
  - repeat constructor.
  - exists onb, rho. split; [exact Honb|]. split; [exact Hrho|].
    apply Hent; simpl; lia.
Defined.

(** ** Orthonormality of the basis *)

(** X9.  The vectors returned by [onb_matrices] are orthonormal: the inner
    product of the [i]-th with the [j]-th is 1 when [i = j] and 0
    otherwise. *)
Theorem onb_matrices_orthonormal (self : CompositeQubitSpace) (fuel : nat) :
  1 <= _n self -> (Z.to_nat (_n self) <= fuel)%nat ->
  exists onb,
    onb_matrices fuel self = Ok onb
    /\ forall i j, (i < length onb)%nat -> (j < length onb)%nat ->
         dot (map Cconj (map RtoC (nth i onb []))) (map RtoC (nth j onb []))
         = if Nat.eqb i j then C1 else C0.
Proof.
  intros Hn Hf. eexists. split; [by apply onb_matrices_standard|].
  set (d := Z.to_nat (2 ^ _n self)). rewrite standard_basis_length.
  intros i j Hi Hj.
  rewrite !(nth_lookup_Some _ _ [] (unit_vector d _))
    by (by apply standard_basis_lookup).
  rewrite conj_real_vector.
  rewrite dot_unit_r by (by rewrite ?length_map, ?unit_vector_length).
  rewrite (nth_map_default RtoC _ j 0%R C0) by reflexivity.
  rewrite (nth_lookup_Some _ j 0%R (if Nat.eqb j i then 1%R else 0%R))
    by (by apply unit_vector_lookup).
  rewrite (Nat.eqb_sym j i). by destruct (Nat.eqb i j).
Qed.

Lemma onb_matrices_orthonormal_witness :
  exists onb, onb_matrices 2 {| _n := 2 |} = Ok onb
    /\ dot (map Cconj (map RtoC (nth 1 onb []))) (map RtoC (nth 2 onb [])) = C0.
Proof.
  destruct (onb_matrices_orthonormal {| _n := 2 |} 2) as (onb & Hrun & Horth).
  - simpl. lia.
  - simpl. lia.
  - exists onb. split; [exact Hrun|].
    assert (Hl : length onb = 4%nat).
    { rewrite onb_matrices_standard in Hrun by (simpl; lia).
      inversion Hrun; subst onb. by rewrite standard_basis_length. }
    apply (Horth 1%nat 2%nat); lia.
Defined.

Lemma density_matrix_coeffs_witness :
  exists ket rho,
    make_state the_qubit_space None None (Some [C1; Ci]) = Ok ket
    /\ density_matrix 1 ket = Ok rho
    /\ float_symmetric rho /\ float_trace rho = 1%R.
Proof.
  apply (density_matrix_coeffs 0 C1 Ci).
  left. intros E. apply (f_equal Re) in E. simpl in E. lra.
Defined.

(** ** Calling basis_from_indices again on the same list *)

(** X10.  Since the call reverses the caller's list, a second call on the
    same list object undoes the reversal and returns the vector of the
    reversed sequence, the one whose index reads the original bits least
    significant first; the two calls return the same vector exactly when
    the sequence reads the same in both directions. *)
Theorem basis_from_indices_twice (self : CompositeQubitSpace) (indices : list Z) :
  1 <= _n self -> Forall is_bit indices -> len indices = _n self ->
  let first := basis_from_indices self indices in
  let second := basis_from_indices self (snd first) in
  snd second = indices
  /\ fst second = Ok (unit_vector (Z.to_nat (2 ^ _n self))
                                  (Z.to_nat (bits_value indices)))
  /\ (fst second = fst first <-> rev indices = indices).
Proof.
  intros Hn Hb Hl. cbv zeta.
  assert (Hrev : Forall is_bit (rev indices)) by (by apply Forall_rev).
  assert (Hlr : len (rev indices) = _n self)
    by (unfold len in *; by rewrite length_rev).
  rewrite (basis_from_indices_valid self indices) by done. cbn [fst snd].
  rewrite (basis_from_indices_valid self (rev indices)) by done. cbn [fst snd].
  rewrite rev_involutive. split; [done|]. split; [done|].
  pose proof (bits_value_range _ Hb) as Hr1.
  pose proof (bits_value_range _ Hrev) as Hr2.
  rewrite Hl in Hr1. rewrite Hlr in Hr2.
  assert (Hd : Z.of_nat (Z.to_nat (2 ^ _n self)) = 2 ^ _n self)
    by (rewrite Z2Nat.id; [done | apply Z.pow_nonneg; lia]).
  split.
  - intros E. inversion E as [E'].
    apply unit_vector_inj in E'; [|lia].
    symmetry. apply bits_value_inj; try done.
    + by rewrite length_rev.
    + lia.
  - intros E. by rewrite E.
Qed.

Lemma basis_from_indices_twice_witness :
  let first := basis_from_indices {| _n := 2 |} [0; 1] in
  let second := basis_from_indices {| _n := 2 |} (snd first) in
  snd second = [0; 1] /\ fst second = Ok [0%R; 0%R; 1%R; 0%R].
Proof.
  destruct (basis_from_indices_twice {| _n := 2 |} [0; 1]) as (H1 & H2 & _).
  - simpl. lia.
  - repeat constructor; unfold is_bit; lia.
  - reflexivity.
  - split; [exact H1 | exact H2].
Defined.

(** ** commutator *)

Lemma zip_sub_swap (u : list C) : forall v,
  zip_with Csub u v = map Copp (zip_with Csub v u).
Proof.
  induction u as [|x u IH]; intros [|y v]; simpl; try done.
  rewrite IH. f_equal. apply C_eq; simpl; ring.
Qed.

Lemma msub_swap (a : matrix) : forall b, msub a b = mneg (msub b a).
Proof.
  unfold msub, mneg. induction a as [|r a IH]; intros [|s b]; simpl; try done.
  by rewrite IH, zip_sub_swap.
Qed.

(** X11.  The commutator is antisymmetric:
    [commutator A B = - commutator B A], for all arrays. *)
Theorem commutator_antisymmetric (A B : matrix) :
  commutator A B = mneg (commutator B A).
Proof. unfold commutator. apply msub_swap. Qed.

(** X12.  A square operator commutes with itself and with the zero
    operator of its size: the three commutators are the zero operator. *)
Theorem commutator_self_and_zero (d : nat) (A : matrix) :
  is_matrix d d A ->
  commutator A A = mzero d d
  /\ commutator A (mzero d d) = mzero d d
  /\ commutator (mzero d d) A = mzero d d.
Proof.
  intros HA. split; [by apply commutator_diag|].
  split; [by apply commutator_mzero_r|].
  unfold commutator. rewrite mmul_mzero_r, mmul_mzero_l by done.
  apply msub_diag, mzero_is_matrix.
Qed.

Lemma commutator_self_and_zero_witness :
  commutator [[C1; Ci]; [C0; C1]] [[C1; Ci]; [C0; C1]] = [[C0; C0]; [C0; C0]].
Proof.
  apply (commutator_self_and_zero 2 [[C1; Ci]; [C0; C1]]).
  split; [reflexivity | repeat constructor].
Defined.

(** ** The Magnus terms on short and on constant inputs *)

(** X13.  None of the three terms checks the number of samples.  On an
    empty sequence each raises [IndexError] (at [h[0]]).  On a single
    square sample [H] the first term counts it as first and as last
    sample, giving [-i * 2 pi * ((H + H) * time_step / 2)], and the second
    and third terms are the zero operator. *)
Theorem magnus_degenerate_inputs (d : nat) (H : matrix) (time_step : R) :
  is_matrix d d H ->
  magnus_expansion_1st_term [] time_step = Raise IndexError
  /\ magnus_expansion_2nd_term [] time_step = Raise IndexError
  /\ magnus_expansion_3rd_term [] time_step = Raise IndexError
  /\ magnus_expansion_1st_term [H] time_step
     = Ok (mscale (Cmul (Copp Ci) (RtoC (2 * PI)))
             (mdivr (mscale_r (madd H H) (RtoC time_step)) 2))
  /\ magnus_expansion_2nd_term [H] time_step = Ok (mzero d d)
  /\ magnus_expansion_3rd_term [H] time_step = Ok (mzero d d).
Proof.
  intros HH. do 3 (split; [reflexivity|]). split; [|split].
  - unfold magnus_expansion_1st_term. simpl. by rewrite minus_i_two_pi.
  - apply (magnus_2nd_constant 1 d H); [lia | done].
  - apply (magnus_3rd_constant 1 d H); [lia | done].
Qed.

Lemma magnus_degenerate_inputs_witness :
  magnus_expansion_2nd_term [[[Ci]]] 1 = Ok [[C0]].
Proof.
  destruct (magnus_degenerate_inputs 1 [[Ci]] 1) as (_ & _ & _ & _ & H & _).
  - split; [reflexivity | repeat constructor].
  - exact H.
Defined.

Lemma zip_add_scaled (a b : C) (row : list C) :
  zip_with Cadd (map (Cmul a) row) (map (Cmul b) row) = map (Cmul (Cadd a b)) row.
Proof.
  induction row as [|x row IH]; simpl; [done|].
  rewrite IH. f_equal. apply C_eq; simpl; ring.
Qed.

Lemma madd_mscale (a b : C) (A : matrix) :
  madd (mscale a A) (mscale b A) = mscale (Cadd a b) A.
Proof.
  unfold madd, mscale. induction A as [|row A IH]; simpl; [done|].
  by rewrite IH, zip_add_scaled.
Qed.

Lemma mscale_mscale (a b : C) (A : matrix) :
  mscale a (mscale b A) = mscale (Cmul a b) A.
Proof.
  unfold mscale. rewrite map_map. apply map_ext. intros row.
  rewrite map_map. apply map_ext. intros x. apply C_eq; simpl; ring.
Qed.

Lemma fold_constant_samples (A : matrix) (k : nat) : forall c : R,
  fold_left madd (replicate k (mscale (RtoC 2) A)) (mscale (RtoC c) A)
  = mscale (RtoC (c + 2 * INR k)) A.
Proof.
  induction k as [|k IH]; intros c.
  - simpl. do 2 f_equal. lra.
  - cbn [replicate fold_left]. rewrite madd_mscale.
    replace (Cadd (RtoC c) (RtoC 2)) with (RtoC (c + 2))
      by (apply C_eq; simpl; ring).
    rewrite IH. do 2 f_equal. rewrite S_INR. lra.
Qed.

(** X14.  On [N >= 2] samples that are all the same operator [A], the
    first term is [-i * 2 pi * ((N - 1) * time_step) * A]: the integral of
    a constant over the sampled interval. *)
Theorem magnus_1st_term_constant (N : nat) (A : matrix) (time_step : R) :
  (2 <= N)%nat ->
  magnus_expansion_1st_term (replicate N A) time_step
  = Ok (mscale (Cmul (Copp Ci) (RtoC (2 * PI)))
          (mscale (RtoC ((INR N - 1) * time_step)) A)).
Proof.
  intros HN. destruct N as [|[|k]]; try lia.
  replace (replicate (S (S k)) A) with (A :: replicate k A ++ [A]).
  - rewrite magnus_1st_split. do 2 f_equal.
    unfold trapezoid_sum. rewrite trapezoid_terms_split.
    unfold msum. rewrite fold_left_app. cbn [fold_left].
    rewrite map_replicate.
    pose proof (fold_constant_samples A k 1) as Hs. rewrite mscale_1 in Hs.
    pose proof (madd_mscale (RtoC (1 + 2 * INR k)) (RtoC 1) A) as Hm.
    rewrite mscale_1 in Hm.
    rewrite Hs, Hm, mscale_mscale.
    f_equal. rewrite !S_INR. apply C_eq; simpl; field.
  - cbn [replicate]. f_equal.
    clear HN. induction k as [|k IH]; simpl; [done | by rewrite IH].
Qed.

Lemma magnus_1st_term_constant_witness :
  magnus_expansion_1st_term (replicate 3 [[C1]]) 1
  = Ok (mscale (Cmul (Copp Ci) (RtoC (2 * PI)))
          (mscale (RtoC ((INR 3 - 1) * 1)) [[C1]])).
Proof. apply (magnus_1st_term_constant 3 [[C1]] 1). lia. Defined.

(** ** The higher terms and the last sample *)

Lemma getitem_in_range {A : Type} (h : list A) (t : Z) :
  0 <= t < len h -> exists x, h !! Z.to_nat t = Some x /\ getitem h t = Ok x.
Proof.
  intros Ht. unfold len in Ht.
  destruct (lookup_lt_is_Some_2 h (Z.to_nat t) ltac:(lia)) as [x Hx].
  exists x. split; [exact Hx|].
  rewrite <- (Z2Nat.id t) by lia. by apply getitem_lookup.
Qed.

Lemma getitem_app_l {A : Type} (h l : list A) (t : Z) :
  0 <= t < len h -> getitem (h ++ l) t = getitem h t.
Proof.
  intros Ht. destruct (getitem_in_range h t Ht) as (x & Hx & ->).
  rewrite <- (Z2Nat.id t) by lia.
  apply getitem_lookup. by apply lookup_app_l_Some.
Qed.

Lemma for_range_ext {A : Type} (n : Z) (f g : Z -> A -> result A) (x : A) :
  (forall t a, 0 <= t < n -> f t a = g t a) ->
  for_range n f x = for_range n g x.
Proof.
  intros Hfg. unfold for_range.
  assert (H : forall k s (acc : result A), (s + k <= Z.to_nat n)%nat ->
            fold_left (fun acc t => let* x := acc in f (Z.of_nat t) x) (seq s k) acc
            = fold_left (fun acc t => let* x := acc in g (Z.of_nat t) x) (seq s k) acc).
  { induction k as [|k IH]; intros s acc Hs; simpl; [done|].
    rewrite IH by lia. f_equal.
    destruct acc as [a|e]; simpl; [|done]. apply Hfg. lia. }
  apply H. lia.
Qed.

(** X15.  The second and third terms never read the last sample: on a
    sequence of at least two samples, replacing the last one by any other
    operator leaves both results as they were. *)
Theorem magnus_higher_terms_ignore_last
    (h : list matrix) (x y : matrix) (time_step : R) :
  h <> [] ->
  magnus_expansion_2nd_term (h ++ [x]) time_step
  = magnus_expansion_2nd_term (h ++ [y]) time_step
  /\ magnus_expansion_3rd_term (h ++ [x]) time_step
     = magnus_expansion_3rd_term (h ++ [y]) time_step.
Proof.
  intros Hne.
  assert (Hpos : 0 < len h) by (destruct h; [done | unfold len; simpl; lia]).
  assert (Hlen : forall z : matrix, len (h ++ [z]) - 1 = len h)
    by (intros z; unfold len; rewrite length_app; simpl; lia).
  assert (Hget : forall (z : matrix) t, 0 <= t < len h ->
            getitem (h ++ [z]) t = getitem h t)
    by (intros z t Ht; by apply getitem_app_l).
  unfold magnus_expansion_2nd_term, magnus_expansion_3rd_term.
  rewrite !Hlen, !(Hget _ 0) by lia.
  split.
  - destruct (getitem h 0) as [h0|e]; simpl rbind; [|done]. f_equal.
    apply for_range_ext. intros t1 a1 Ht1.
    apply for_range_ext. intros t2 a2 Ht2.
    by rewrite !Hget by lia.
  - destruct (getitem h 0) as [h0|e]; simpl rbind; [|done]. f_equal.
    apply for_range_ext. intros t1 a1 Ht1.
    apply for_range_ext. intros t2 a2 Ht2.
    apply for_range_ext. intros t3 a3 Ht3.
    by rewrite !Hget by lia.
Qed.

Lemma magnus_higher_terms_ignore_last_witness :
  magnus_expansion_2nd_term ([[[C1]]] ++ [[[Ci]]]) 1
  = magnus_expansion_2nd_term ([[[C1]]] ++ [[[C0]]]) 1.
Proof.
  apply (magnus_higher_terms_ignore_last [[[C1]]] [[Ci]] [[C0]] 1). discriminate.
Defined.

(** X16.  When the samples are square operators of one size that commute
    pairwise, the second and third terms are the zero operator. *)
Theorem magnus_higher_terms_commuting
    (d : nat) (h : list matrix) (time_step : R) :
  h <> [] ->
  Forall (is_matrix d d) h ->
  (forall a b, a ∈ h -> b ∈ h -> commutator a b = mzero d d) ->
  magnus_expansion_2nd_term h time_step = Ok (mzero d d)
  /\ magnus_expansion_3rd_term h time_step = Ok (mzero d d).
Proof.
  intros Hne Hsq Hcomm.
  assert (Hpos : 0 < len h) by (destruct h; [done | unfold len; simpl; lia]).
  assert (Hget : forall t, 0 <= t < len h ->
            exists a, getitem h t = Ok a /\ a ∈ h /\ is_matrix d d a).
  { intros t Ht. destruct (getitem_in_range h t Ht) as (a & Ha & Hg).
    exists a. split; [exact Hg|]. split.
    - by apply (list_elem_of_lookup_2 h (Z.to_nat t)).
    - by apply (Forall_lookup_1 _ _ _ _ Hsq Ha). }
  unfold magnus_expansion_2nd_term, magnus_expansion_3rd_term.
  destruct (Hget 0 ltac:(lia)) as (h0 & -> & _ & Hh0). simpl rbind.
  rewrite (mscale_r_zero d d h0 Hh0).
  split.
  - rewrite for_range_fixed; [simpl rbind; by rewrite !mscale_mzero|].
    intros t1 Ht1. apply for_range_fixed. intros t2 Ht2.
    destruct (Hget t1 ltac:(lia)) as (a & -> & Ha & _).
    destruct (Hget t2 ltac:(lia)) as (b & -> & Hb & _). simpl rbind.
    by rewrite (Hcomm a b Ha Hb), mscale_r_mzero, madd_mzero.
  - rewrite for_range_fixed; [simpl rbind; by rewrite mscale_mzero|].
    intros t1 Ht1. apply for_range_fixed. intros t2 Ht2.
    apply for_range_fixed. intros t3 Ht3.
    destruct (Hget t1 ltac:(lia)) as (a & -> & Ha & Ha').
    destruct (Hget t2 ltac:(lia)) as (b & -> & Hb & _).
    destruct (Hget t3 ltac:(lia)) as (c & -> & Hc & Hc'). simpl rbind.
    rewrite (Hcomm b c Hb Hc), (Hcomm b a Hb Ha).
    rewrite (commutator_mzero_r d a Ha'), (commutator_mzero_r d c Hc').
    by rewrite madd_mzero, mscale_r_mzero, madd_mzero.
Qed.

Lemma diagonal_commute (a b c e : R) :
  commutator [[RtoC a; C0]; [C0; RtoC b]] [[RtoC c; C0]; [C0; RtoC e]] = mzero 2 2.
Proof.
  unfold commutator, msub, mmul, dot, csum, mzero. simpl.
  repeat match goal with
         | |- (_ :: _) = (_ :: _) => f_equal
         end; apply C_eq; simpl; ring.
Qed.

Lemma magnus_higher_terms_commuting_witness :
  let h := [[[RtoC 1; C0]; [C0; RtoC 2]]; [[RtoC 3; C0]; [C0; RtoC 4]];
            [[RtoC 1; C0]; [C0; RtoC 2]]] in
  magnus_expansion_2nd_term h 1 = Ok (mzero 2 2)
  /\ magnus_expansion_3rd_term h 1 = Ok (mzero 2 2).
Proof.
  intros h. apply (magnus_higher_terms_commuting 2 h 1).
  - discriminate.
  - repeat constructor.
  - intros a b Ha Hb.
    assert (Hd : forall m, m ∈ h -> exists u v, m = [[RtoC u; C0]; [C0; RtoC v]]).
    { intros m Hm. unfold h in Hm.
      repeat (apply elem_of_cons in Hm as [->|Hm]; [eauto|]).
      by apply elem_of_nil in Hm. }
    destruct (Hd a Ha) as (u & v & ->). destruct (Hd b Hb) as (u' & v' & ->).
    apply diagonal_commute.
Defined.

(** ** canonical_density_matrix and the ratio H / T *)

(** X17.  Only the ratio of Hamiltonian to temperature matters: scaling
    both by the same positive factor changes neither the outcome nor, at a
    positive temperature, the exponent handed to the exponential. *)
Theorem canonical_density_matrix_scaling
    (expm : matrix -> matrix) (norm : matrix -> R)
    (hamiltonian : matrix) (temperature k : R) :
  (0 < k)%R ->
  canonical_density_matrix expm norm (mscale (RtoC k) hamiltonian) (k * temperature)
  = canonical_density_matrix expm norm hamiltonian temperature
  /\ ((0 < temperature)%R ->
      canonical_exponent (mscale (RtoC k) hamiltonian) (k * temperature)
      = canonical_exponent hamiltonian temperature).
Proof.
  intros Hk.
  assert (Hexp : (0 < temperature)%R ->
            canonical_exponent (mscale (RtoC k) hamiltonian) (k * temperature)
            = canonical_exponent hamiltonian temperature).
  { intros HT. unfold canonical_exponent, mdivr, mneg, mscale_r, mscale.
    rewrite !map_map. apply map_ext. intros row.
    rewrite !map_map. apply map_ext. intros x.
    assert (Boltzmann <> 0)%R by (unfold Boltzmann; lra).
    apply C_eq; simpl; field; lra. }
  split; [|exact Hexp].
  unfold canonical_density_matrix.
  destruct (Rle_dec temperature 0) as [Hle|Hgt];
    destruct (Rle_dec (k * temperature) 0) as [Hle'|Hgt']; try done.
  - exfalso. apply Hgt'. nra.
  - exfalso. apply Hgt. nra.
  - rewrite Hexp by lra. reflexivity.
Qed.

Lemma canonical_density_matrix_scaling_witness :
  canonical_density_matrix expm_scalar norm_scalar (mscale (RtoC 2) [[C1]]) (2 * 300)
  = canonical_density_matrix expm_scalar norm_scalar [[C1]] 300.
Proof.
  apply (canonical_density_matrix_scaling expm_scalar norm_scalar [[C1]] 300 2). lra.
Defined.

(** ** The module's gate constants *)

Lemma CNOT_value :
  CNOT = Ok {| gate_qs := {| _n := 2 |}; gate_n := 2; gate_matrix := CNOT_array |}.
Proof.
  unfold CNOT. simpl rbind.
  apply NGate_init_shape_only; [simpl; lia | reflexivity].
Qed.

(** X18.  Both constants are built without error when the module is
    loaded, and although the constructor does not reject anything of the
    right shape, the arrays they hold are unitary. *)
Theorem gate_constants_unitary :
  (exists g, HADAMARD = Ok g /\ gate_n g = 1 /\ is_unitary (gate_matrix g))
  /\ (exists g, CNOT = Ok g /\ gate_n g = 2 /\ is_unitary (gate_matrix g)).
Proof.
  split.
  - eexists. split; [apply HADAMARD_value|]. split; [reflexivity|].
    cbn [gate_matrix]. pose proof sqrt2_inv_sq as Hs.
    unfold is_unitary, HADAMARD_array, adjoint, transpose, mmul, mscale, col,
      dot, csum, identity. simpl.
    set (s := (1 / sqrt 2)%R) in *.
    repeat match goal with
           | |- (_ :: _) = (_ :: _) => f_equal
           end; apply C_eq; simpl; nra.
  - eexists. split; [apply CNOT_value|]. split; [reflexivity|].
    cbn [gate_matrix].
    unfold is_unitary, CNOT_array, adjoint, transpose, mmul, col,
      dot, csum, identity. simpl.
    repeat match goal with
           | |- (_ :: _) = (_ :: _) => f_equal
           end; apply C_eq; simpl; ring.
Qed.

(* ================================================================= *)
(** * The canonical density matrix *)

Lemma canonical_exponent_formula (hamiltonian : matrix) (temperature : R) :
  canonical_exponent hamiltonian temperature
  = mscale (RtoC (thermal_factor temperature)) hamiltonian.
Proof.
  unfold canonical_exponent, thermal_factor, mdivr, mneg, mscale_r, mscale.
  rewrite !map_map. apply map_ext. intros row.
  rewrite !map_map. apply map_ext. intros x.
  apply C_eq; simpl; unfold Rdiv; ring.
Qed.

Lemma Cmod_Cexp (z : C) : Cmod (Cexp z) = exp (Re z).
Proof.
  unfold Cmod, Cexp. simpl.
  pose proof (sin2_cos2 (Im z)) as H. unfold Rsqr in H.
  replace (exp (Re z) * cos (Im z) * (exp (Re z) * cos (Im z))
           + exp (Re z) * sin (Im z) * (exp (Re z) * sin (Im z)))%R
    with (exp (Re z) * exp (Re z) * (sin (Im z) * sin (Im z) + cos (Im z) * cos (Im z)))%R
    by ring.
  rewrite H, Rmult_1_r. apply sqrt_square. left. apply exp_pos.
Qed.

Lemma Cexp_real (z : C) : Im z = 0%R -> Cexp z = RtoC (exp (Re z)).
Proof.
  intros Hz. unfold Cexp. rewrite Hz, cos_0, sin_0. apply C_eq; simpl; ring.
Qed.

Lemma mscale_entry (c : C) (q : matrix) (i j : nat) :
  nth j (nth i (mscale c q) []) C0 = Cmul c (nth j (nth i q []) C0).
Proof.
  unfold mscale.
  rewrite (nth_map_default (map (Cmul c)) q i [] []) by reflexivity.
  apply (nth_map_default (Cmul c)), Cmul_0_r.
Qed.

Lemma mscale_is_matrix (c : C) (r k : nat) (q : matrix) :
  is_matrix r k q -> is_matrix r k (mscale c q).
Proof.
  intros [Hr Hk]. unfold mscale. split; [by rewrite length_map|].
  apply Forall_forall. intros row Hrow.
  apply list_elem_of_In, in_map_iff in Hrow as (r0 & <- & Hr0).
  rewrite length_map. apply list_elem_of_In in Hr0.
  by apply (proj1 (Forall_forall _ _) Hk).
Qed.

Lemma expm_diagonal_entry (d : nat) (q : matrix) (i : nat) :
  is_matrix d d q -> (i < d)%nat ->
  nth i (nth i (expm_diagonal q) []) C0 = Cexp (nth i (nth i q []) C0).
Proof.
  intros Hq Hi. pose proof Hq as [Hr _]. unfold expm_diagonal.
  rewrite (is_matrix_ncols d q Hq), Hr.
  rewrite (nth_map_seq _ d i []), (nth_map_seq _ d i C0) by done.
  by rewrite Nat.eqb_refl.
Qed.

Lemma expm_diagonal_length (q : matrix) : length (expm_diagonal q) = length q.
Proof. unfold expm_diagonal. by rewrite length_map, length_seq. Qed.

Lemma csum_real (f : nat -> R) (l : list nat) :
  csum (map (fun i => RtoC (f i)) l) = RtoC (fold_right Rplus 0%R (map f l)).
Proof.
  induction l as [|i l IH]; simpl; [done|].
  rewrite IH. apply C_eq; simpl; ring.
Qed.

Lemma sum_exp_pos (f : nat -> R) (d : nat) :
  (1 <= d)%nat -> (0 < fold_right Rplus 0%R (map (fun i => exp (f i)) (seq 0 d)))%R.
Proof.
  intros Hd.
  assert (H : forall k s, (0 <= fold_right Rplus 0%R
                                  (map (fun i => exp (f i)) (seq s k)))%R).
  { induction k as [|k IH]; intros s; simpl; [lra|].
    pose proof (exp_pos (f s)). pose proof (IH (S s)). lra. }
  destruct d as [|d]; [lia|]. simpl.
  pose proof (exp_pos (f 0%nat)). pose proof (H d 1%nat). lra.
Qed.

Section RealDiagonal.

Variables (d : nat) (kappa : R) (H : matrix).
Hypothesis Hd : (1 <= d)%nat.
Hypothesis HH : is_real_diagonal d H.

Lemma scaled_entry_real (i : nat) :
  (i < d)%nat ->
  Re (nth i (nth i (mscale (RtoC kappa) H) []) C0)
  = (kappa * Re (nth i (nth i H []) C0))%R
  /\ Im (nth i (nth i (mscale (RtoC kappa) H) []) C0) = 0%R.
Proof.
  intros Hi. destruct HH as (_ & Hre & _).
  rewrite mscale_entry. simpl. rewrite (Hre i Hi). split; ring.
Qed.

Lemma scaled_is_matrix : is_matrix d d (mscale (RtoC kappa) H).
Proof. apply mscale_is_matrix. by destruct HH. Qed.

Lemma scaled_length : length (mscale (RtoC kappa) H) = d.
Proof. by destruct scaled_is_matrix. Qed.

Lemma H_length : length H = d.
Proof. destruct HH as ([Hr _] & _). exact Hr. Qed.

Lemma exponential_entry (i : nat) :
  (i < d)%nat ->
  nth i (nth i (expm_diagonal (mscale (RtoC kappa) H)) []) C0
  = RtoC (boltzmann_weight kappa H i).
Proof.
  intros Hi. destruct (scaled_entry_real i Hi) as [Hre Him].
  rewrite (expm_diagonal_entry d) by (done || apply scaled_is_matrix).
  rewrite Cexp_real by done. unfold boltzmann_weight. by rewrite Hre.
Qed.

Lemma exponential_norm :
  norm_diagonal (expm_diagonal (mscale (RtoC kappa) H)) = partition_sum kappa H.
Proof.
  unfold norm_diagonal, partition_sum.
  rewrite expm_diagonal_length, scaled_length, H_length. f_equal.
  apply map_ext_in. intros i Hi. apply in_seq in Hi.
  rewrite (expm_diagonal_entry d) by (apply scaled_is_matrix || lia).
  rewrite Cmod_Cexp. unfold boltzmann_weight.
  by destruct (scaled_entry_real i ltac:(lia)) as [-> _].
Qed.

Lemma exponential_trace :
  trace (expm_diagonal (mscale (RtoC kappa) H)) = RtoC (partition_sum kappa H).
Proof.
  unfold trace, partition_sum.
  rewrite expm_diagonal_length, scaled_length, H_length.
  rewrite <- csum_real. f_equal.
  apply map_ext_in. intros i Hi. apply in_seq in Hi.
  apply exponential_entry. lia.
Qed.

Lemma partition_sum_pos : (0 < partition_sum kappa H)%R.
Proof.
  unfold partition_sum. rewrite H_length.
  apply (sum_exp_pos (fun i => (kappa * Re (nth i (nth i H []) C0))%R) d Hd).
Qed.

Lemma gibbs_state :
  let rho := unit norm_diagonal (expm_diagonal (mscale (RtoC kappa) H)) in
  trace rho = C1
  /\ unit_trace rho = true
  /\ forall i, (i < d)%nat ->
       nth i (nth i rho []) C0
       = RtoC (boltzmann_weight kappa H i / partition_sum kappa H).
Proof.
  cbv zeta. pose proof partition_sum_pos as Hpos.
  split; [|split].
  - unfold unit. rewrite trace_mdivr, exponential_trace, exponential_norm.
    apply C_eq; simpl; field; lra.
  - apply unit_unit_trace.
    + by rewrite exponential_trace, exponential_norm.
    + by rewrite exponential_norm.
  - intros i Hi. unfold unit, mdivr. rewrite exponential_norm.
    rewrite (nth_map_default (map (fun y => Cdivr y (partition_sum kappa H)))
               _ i [] []) by reflexivity.
    rewrite (nth_map_default (fun y => Cdivr y (partition_sum kappa H))
               _ i C0 C0) by apply Cdivr_0.
    rewrite exponential_entry by done.
    apply C_eq; simpl; unfold Rdiv; ring.
Qed.

End RealDiagonal.

Lemma two_level_real_diagonal : is_real_diagonal 2 [[C0; C0]; [C0; C1]].
Proof.
  split; [|split].
  - split; [reflexivity | repeat constructor].
  - intros [|[|i]] Hi; simpl; (reflexivity || lia).
  - intros [|[|i]] [|[|j]] Hi Hj Hne; simpl; (reflexivity || lia || congruence).
Qed.

Lemma two_level_ground_weight (kappa : R) :
  nth 0 (nth 0 (unit norm_diagonal
                  (expm_diagonal (mscale (RtoC kappa) [[C0; C0]; [C0; C1]]))) []) C0
  = RtoC (1 / (1 + exp kappa)).
Proof.
  destruct (gibbs_state 2 kappa _ ltac:(lia) two_level_real_diagonal)
    as (_ & _ & Hent).
  rewrite (Hent 0%nat) by lia. f_equal.
  unfold partition_sum, boltzmann_weight. simpl.
  rewrite Rmult_0_r, Rmult_1_r, exp_0. f_equal. ring.
Qed.

Lemma specified_factor :
  (- (hbar / Boltzmann * (2 * PI) * 1e6) / 1 = - (Planck / Boltzmann * 1e6))%R.
Proof.
  unfold hbar. assert (Boltzmann <> 0)%R by (unfold Boltzmann; lra).
  pose proof PI_neq0. field. split; [done | lra].
Qed.

Lemma planck_factor_differs :
  thermal_factor 1 <> (- (hbar / Boltzmann * (2 * PI) * 1e6) / 1)%R.
Proof.
  rewrite specified_factor. unfold thermal_factor.
  assert (Hc : (0 < Planck / Boltzmann * 1e6)%R).
  { unfold Planck, Boltzmann. lra. }
  pose proof PI2_1 as Hpi.
  set (c := (Planck / Boltzmann * 1e6)%R) in *.
  replace (- (Planck / Boltzmann * (2 * PI) * 1e6) / 1)%R with (- (c * (2 * PI)))%R
    by (unfold c; field; unfold Boltzmann; lra).
  nra.
Qed.



